(** * The FPGA device plugin server (k8s-fpga-device-plugin/server.go)

    A shallow embedding of the device-type server of the Kubernetes FPGA
    device plugin: the reconciliation step [checkDeviceUpdate], the
    advertisement step [sendDevices], the allocation handler [Allocate] and
    the server teardown [Stop], followed by the properties the specification
    states about them.

    Conventions.
    - A Go [string] is a sequence of bytes: Rocq's [string].
    - A Go [map[string]V] is a [gmap string V]; a [range] statement over it
      visits every entry once in an order the runtime picks
      ([RangeOrder], [range]).
    - A Go function returning [(value, error)] returns a [Result]. *)

From Stdlib Require Import Ascii.
From stdpp Require Import gmap strings list fin_maps.

(** ** Constants (server.go, lines 32-36) *)

Definition resourceNamePrefix : string := "xilinx.com/fpga".
Definition AWS_SN : string := "F1-Node".

(** ** strings.EqualFold

    The Go library function compares two UTF-8 strings under simple Unicode
    case folding. Its byte loop is embedded here: two bytes match when they are
    equal, or when the smaller one is an upper-case ASCII letter and the
    larger one is its lower-case form. For an argument made of ASCII
    characters other than the letters k and s (whose folding orbits reach
    outside ASCII) this is the whole function, and server.go only ever calls
    it with [AWS_SN] as second argument. *)

Definition foldEqByte (sr tr : ascii) : bool :=
  let s := Ascii.nat_of_ascii sr in
  let t := Ascii.nat_of_ascii tr in
  if s =? t then true
  else
    let lo := s `min` t in
    let hi := s `max` t in
    (65 <=? lo) && (lo <=? 90) && (hi =? lo + 32).

Fixpoint EqualFold (s t : string) : bool :=
  match s, t with
  | EmptyString, EmptyString => true
  | String sr s', String tr t' =>
      if foldEqByte sr tr then EqualFold s' t' else false
  | _, _ => false
  end.

(** ASCII lower-casing, the reading of "case-insensitively equal" that
    [EqualFold] is compared with below. *)

Definition lowerByte (c : ascii) : ascii :=
  let n := Ascii.nat_of_ascii c in
  if (65 <=? n) && (n <=? 90) then Ascii.ascii_of_nat (n + 32) else c.

Fixpoint lowerString (s : string) : string :=
  match s with
  | EmptyString => EmptyString
  | String c s' => String (lowerByte c) (lowerString s')
  end.

Definition caseVariant (s t : string) : Prop := lowerString s = lowerString t.

(** ** IsContain (server.go, lines 275-283) *)

Fixpoint IsContain (items : list string) (item : string) : bool :=
  match items with
  | [] => false
  | eachItem :: rest =>
      if String.eqb eachItem item && negb (EqualFold item AWS_SN)
      then true
      else IsContain rest item
  end.

(** ** Devices

    Modelled from the spec: the [Device] and [Pairs] struct types are declared
    in a file of the plugin outside server.go. The fields are the ones
    server.go reads: [shellVer] and [timestamp] (the DeviceType key), [DBDF]
    (the device id), [SN] (the serial number), [Healthy] (copied into the
    [Health] string of the advertised device) and the three device-node paths
    of [Nodes]. *)

Record Pairs := mkPairs {
  Mgmt : string;
  User : string;
  Qdma : string
}.

Record Device := mkDevice {
  shellVer : string;
  timestamp : string;
  DBDF : string;
  Healthy : string;
  Nodes : Pairs;
  SN : string
}.

#[global] Instance Pairs_eq_dec : EqDecision Pairs.
Proof. solve_decision. Defined.

#[global] Instance Device_eq_dec : EqDecision Device.
Proof. solve_decision. Defined.

(** The zero value of [Device]: what [m.devices[id]] evaluates to when [id]
    is not a key of the map. *)
Definition zeroDevice : Device :=
  mkDevice "" "" "" "" (mkPairs "" "" "") "".

Abbreviation DeviceMap := (gmap string Device).
Abbreviation Inventory := (gmap string (gmap string Device)).

(** [m[id]] in its one-result form. *)
Definition lookupDev (m : DeviceMap) (id : string) : Device :=
  default zeroDevice (m !! id).

(** A device map is keyed by the id of the device it stores: the poll loop
    stores every device under [device.DBDF] (lines 79-86). *)
Definition keyedById (m : DeviceMap) : Prop :=
  map_Forall (λ k d, DBDF d = k) m.

(** ** Iteration order of [range] over a map

    Go leaves the order of a [range] over a map unspecified and varies it from
    one statement to the next. Each [range] statement of server.go is a
    [RangeSite]; a [RangeOrder] picks, for every site, a rearrangement of the
    entries. *)

Inductive RangeSite :=
| AtAllocateSerial (creq id2 : nat)
| AtDeviceExists (creq idx : nat)
| AtSendDevices
| AtCheckOld
| AtCheckNew
| AtCheckAdded
| AtCheckRemoved
| AtCheckUpdated.

Record RangeOrder := mkRangeOrder {
  order_of : ∀ A : Type, RangeSite → list A → list A;
  order_perm : ∀ (A : Type) (s : RangeSite) (l : list A), order_of A s l ≡ₚ l
}.

Definition range {V : Type} (π : RangeOrder) (s : RangeSite)
    (m : gmap string V) : list (string * V) :=
  order_of π _ s (map_to_list m).

(** Two orders to run the definitions with: the one [map_to_list] gives, and
    its reverse. *)
Definition listedOrder : RangeOrder.
Proof.
  refine (mkRangeOrder (fun _ _ l => l) _).
  intros A s l. reflexivity.
Defined.

Definition reversedOrder : RangeOrder.
Proof.
  refine (mkRangeOrder (fun _ _ l => reverse l) _).
  intros A s l. apply reverse_Permutation.
Defined.

(** ** deviceExists (server.go, lines 178-185) *)

Fixpoint deviceExists_loop (entries : list (string * Device)) (id : string)
    : bool :=
  match entries with
  | [] => false
  | (k, _) :: rest =>
      if String.eqb k id then true else deviceExists_loop rest id
  end.

Definition deviceExists (π : RangeOrder) (s : RangeSite)
    (m : DeviceMap) (id : string) : bool :=
  deviceExists_loop (range π s m) id.

(** ** The kubelet device-plugin API (pluginapi), as far as server.go fills
    it in *)

Record ApiDevice := mkApiDevice {
  ID : string;
  Health : string
}.

Record DeviceSpec := mkDeviceSpec {
  spec_ContainerPath : string;
  spec_HostPath : string;
  spec_Permissions : string
}.

Record Mount := mkMount {
  mount_ContainerPath : string;
  mount_HostPath : string;
  mount_ReadOnly : bool
}.

Record ContainerAllocateResponse := mkContainerAllocateResponse {
  Mounts : list Mount;
  Devices : list DeviceSpec
}.

#[global] Instance ApiDevice_eq_dec : EqDecision ApiDevice.
Proof. solve_decision. Defined.

#[global] Instance DeviceSpec_eq_dec : EqDecision DeviceSpec.
Proof. solve_decision. Defined.

#[global] Instance Mount_eq_dec : EqDecision Mount.
Proof. solve_decision. Defined.

(** An [AllocateRequest] is the list of its container requests, each the list
    [DevicesIDs]; an [AllocateResponse] is the list [ContainerResponses]. *)
Abbreviation AllocateRequest := (list (list string)).
Abbreviation AllocateResponse := (list ContainerAllocateResponse).

(** The two errors [Allocate] builds with [fmt.Errorf] (lines 349 and 352). *)
Inductive AllocateError :=
| NonExistingDevice (id : string)
| UnknownDevice (id : string).

Definition errorText (e : AllocateError) : string :=
  match e with
  | NonExistingDevice id =>
      "Invalid allocation request with non-existing device " +:+ id
  | UnknownDevice id =>
      "invalid allocation request: unknown device: " +:+ id
  end.

(** A Go result pair: [Ok v] is [(v, nil)], [Err e] is [(nil, e)]. *)
Inductive Result (A : Type) :=
| Ok (v : A)
| Err (e : AllocateError).
Arguments Ok {A} v.
Arguments Err {A} e.

(** ** The field [m.devices] as a call of Allocate reads it

    [ListAndWatch] assigns [m.devices] in its own goroutine (line 316), and
    no lock guards the field. A call of [Allocate] reads the field anew at
    line 337 (the [range]), at line 338 (the index expression, once per
    device of the [range]), at line 347 and, through [deviceExists], at line
    179; two of these reads see different maps when [ListAndWatch] receives a
    snapshot in between. A [FieldRead] is one read of a call, and a
    [DevicesField] gives the map each read sees. *)
Inductive FieldRead :=
| ReadSerialRange (creq id2 : nat)
| ReadSerialLookup (creq id2 j : nat)
| ReadLookup (creq idx : nat)
| ReadDeviceExists (creq idx : nat).

Definition DevicesField := FieldRead → DeviceMap.

(** The field during a call that no assignment falls into. *)
Definition steady (m : DeviceMap) : DevicesField := λ _, m.
Arguments steady _ _ /.

(** The reads of a call in program order: container request by container
    request, first the reads of the expansion, then those of the loop over
    the expanded slice. *)
Definition readKey (r : FieldRead) : nat * nat * nat * nat :=
  match r with
  | ReadSerialRange creq id2 => (creq, 0, id2, 0)
  | ReadSerialLookup creq id2 j => (creq, 0, id2, S j)
  | ReadLookup creq idx => (creq, 1, idx, 0)
  | ReadDeviceExists creq idx => (creq, 1, idx, 1)
  end.

Definition readBefore (r r' : FieldRead) : bool :=
  let '(a, b, c, d) := readKey r in
  let '(a', b', c', d') := readKey r' in
  (a <? a')
  || (a =? a') && ((b <? b')
                   || (b =? b') && ((c <? c') || (c =? c') && (d <? d'))).

(** ** Allocate (server.go, lines 325-403)

    [serialPass], [serialExpand], [allocateLoop] and [Allocate] are the call
    on a device map [m]: every read of [m.devices] gives [m]. The
    definitions ending in [_field] are the call beside [ListAndWatch], each
    read taking the map of the field at that read. *)

(** Lines 338-340: the body of the inner loop, for the device [device] the
    [range] over [m.devices] is at; [m] is the map the index expression
    reads. *)
Definition serialStep (m : DeviceMap) (id2 : nat)
    (deviceIDs_arry : list string) (device : Device) : list string :=
  if String.eqb (SN device) (SN (lookupDev m (nth id2 deviceIDs_arry "")))
     && negb (EqualFold (SN device) AWS_SN)
     && negb (IsContain deviceIDs_arry (DBDF device))
  then deviceIDs_arry ++ [DBDF device]
  else deviceIDs_arry.

(** Lines 337-341: one pass over [m.devices]. *)
Definition serialPass (π : RangeOrder) (m : DeviceMap) (creq id2 : nat)
    (deviceIDs_arry : list string) : list string :=
  foldl (serialStep m id2) deviceIDs_arry
        (snd <$> range π (AtAllocateSerial creq id2) m).

(** Lines 335-342: [id2] runs over the indices of the slice as it was when
    the loop began. *)
Definition serialExpand (π : RangeOrder) (m : DeviceMap) (creq : nat)
    (DevicesIDs : list string) : list string :=
  foldl (fun arr id2 => serialPass π m creq id2 arr) DevicesIDs
        (seq 0 (length DevicesIDs)).

Definition nodeSpec (p : string) : DeviceSpec :=
  mkDeviceSpec p p "rwm".

Definition nodeMount (p : string) : Mount :=
  mkMount p p false.

(** One [append] to [cres.Devices] followed by one to [cres.Mounts]. *)
Definition appendNode (p : string) (cres : ContainerAllocateResponse)
    : ContainerAllocateResponse :=
  mkContainerAllocateResponse (Mounts cres ++ [nodeMount p])
                              (Devices cres ++ [nodeSpec p]).

(** Lines 363-397. *)
Definition grantNodes (dev : Device) (cres : ContainerAllocateResponse)
    : ContainerAllocateResponse :=
  let cres1 :=
    if negb (String.eqb (Mgmt (Nodes dev)) "")
    then appendNode (Mgmt (Nodes dev)) cres else cres in
  let cres2 := appendNode (User (Nodes dev)) cres1 in
  if negb (String.eqb (Qdma (Nodes dev)) "")
  then appendNode (Qdma (Nodes dev)) cres2 else cres2.

(** Lines 345-398: [idx] is the position of the first id of [ids] in the
    expanded slice. The lookup of line 347 and the loop of [deviceExists]
    (line 179) each read the field. *)
Fixpoint resolveLoop (π : RangeOrder) (field : DevicesField)
    (creq idx : nat) (ids : list string) (cres : ContainerAllocateResponse)
    : Result ContainerAllocateResponse :=
  match ids with
  | [] => Ok cres
  | id :: rest =>
      match field (ReadLookup creq idx) !! id with
      | None => Err (NonExistingDevice id)
      | Some dev =>
          if negb (deviceExists π (AtDeviceExists creq idx)
                                (field (ReadDeviceExists creq idx)) id)
          then Err (UnknownDevice id)
          else resolveLoop π field creq (S idx) rest (grantNodes dev cres)
      end
  end.

Definition emptyContainerResponse : ContainerAllocateResponse :=
  mkContainerAllocateResponse [] [].

(** Lines 329-400: [creq] is the position of the first request of [creqs]
    in [req.ContainerRequests]. *)
Fixpoint allocateLoop (π : RangeOrder) (m : DeviceMap) (creq : nat)
    (creqs : AllocateRequest) (response : AllocateResponse)
    : Result AllocateResponse :=
  match creqs with
  | [] => Ok response
  | DevicesIDs :: rest =>
      let deviceIDs_arry := serialExpand π m creq DevicesIDs in
      match resolveLoop π (steady m) creq 0 deviceIDs_arry
                        emptyContainerResponse with
      | Err e => Err e
      | Ok cres => allocateLoop π m (S creq) rest (response ++ [cres])
      end
  end.

Definition Allocate (π : RangeOrder) (m : DeviceMap) (req : AllocateRequest)
    : Result AllocateResponse :=
  allocateLoop π m 0 req [].

(** Lines 337-341 beside [ListAndWatch]: [j] counts the devices of the
    [range]; the index expression of line 338 reads the field once per
    device. *)
Fixpoint serialFold_field (field : DevicesField) (creq id2 j : nat)
    (devs : list Device) (deviceIDs_arry : list string) : list string :=
  match devs with
  | [] => deviceIDs_arry
  | device :: rest =>
      serialFold_field field creq id2 (S j) rest
        (serialStep (field (ReadSerialLookup creq id2 j)) id2
                    deviceIDs_arry device)
  end.

Definition serialPass_field (π : RangeOrder) (field : DevicesField)
    (creq id2 : nat) (deviceIDs_arry : list string) : list string :=
  serialFold_field field creq id2 0
    (snd <$> range π (AtAllocateSerial creq id2)
                   (field (ReadSerialRange creq id2)))
    deviceIDs_arry.

Definition serialExpand_field (π : RangeOrder) (field : DevicesField)
    (creq : nat) (DevicesIDs : list string) : list string :=
  foldl (fun arr id2 => serialPass_field π field creq id2 arr) DevicesIDs
        (seq 0 (length DevicesIDs)).

Fixpoint allocateLoop_field (π : RangeOrder) (field : DevicesField)
    (creq : nat) (creqs : AllocateRequest) (response : AllocateResponse)
    : Result AllocateResponse :=
  match creqs with
  | [] => Ok response
  | DevicesIDs :: rest =>
      let deviceIDs_arry := serialExpand_field π field creq DevicesIDs in
      match resolveLoop π field creq 0 deviceIDs_arry
                        emptyContainerResponse with
      | Err e => Err e
      | Ok cres =>
          allocateLoop_field π field (S creq) rest (response ++ [cres])
      end
  end.

Definition Allocate_field (π : RangeOrder) (field : DevicesField)
    (req : AllocateRequest) : Result AllocateResponse :=
  allocateLoop_field π field 0 req [].

(** The container response lines 345-398 build when every id of the slice
    is a key of the device map. *)
Definition grantAll (m : DeviceMap) (ids : list string)
    (cres : ContainerAllocateResponse) : ContainerAllocateResponse :=
  foldl (fun cres id => grantNodes (lookupDev m id) cres) cres ids.

(** The device-node paths the specification lists for a device: the
    management node when the device reports one, the user node, the DMA node
    when the device reports one. *)
Definition nodePaths (dev : Device) : list string :=
  (if decide (Mgmt (Nodes dev) = "") then [] else [Mgmt (Nodes dev)])
  ++ [User (Nodes dev)]
  ++ (if decide (Qdma (Nodes dev) = "") then [] else [Qdma (Nodes dev)]).

(** A container response grants a device when it holds a device-node grant
    and a mount for each of the device's node paths. *)
Definition grantsDevice (cres : ContainerAllocateResponse) (dev : Device)
    : Prop :=
  ∀ p, p ∈ nodePaths dev →
       nodeSpec p ∈ Devices cres ∧ nodeMount p ∈ Mounts cres.

(** Every id of the batch is a key of the device map. *)
Definition knownIds (m : DeviceMap) (req : AllocateRequest) : Prop :=
  Forall (Forall (λ id, is_Some (m !! id))) req.

#[global] Instance keyedById_dec (m : DeviceMap) : Decision (keyedById m).
Proof. unfold keyedById. apply _. Defined.

#[global] Instance knownIds_dec (m : DeviceMap) (req : AllocateRequest)
  : Decision (knownIds m req).
Proof. unfold knownIds. apply _. Defined.

(** ** sendDevices (server.go, lines 285-310) *)

(** Lines 291-300: the loop body; the state is [SerialNums] and
    [resp.Devices]. *)
Definition advertiseStep (st : list string * list ApiDevice) (device : Device)
    : list string * list ApiDevice :=
  let '(SerialNums, respDevices) := st in
  if IsContain SerialNums (SN device) && negb (String.eqb (SN device) "")
  then st
  else
    if String.eqb (SN device) ""
    then st
    else (SerialNums ++ [SN device],
          respDevices ++ [mkApiDevice (DBDF device) (Healthy device)]).

(** Lines 286-301: the [ListAndWatchResponse] handed to [s.Send]. *)
Definition advertised (π : RangeOrder) (m : DeviceMap) : list ApiDevice :=
  snd (foldl advertiseStep ([], []) (snd <$> range π AtSendDevices m)).

(** The loop read as a filter: the devices it advertises out of [devs], given
    the serial numbers advertised before. *)
Fixpoint keptDevices (SerialNums : list string) (devs : list Device)
    : list Device :=
  match devs with
  | [] => []
  | device :: rest =>
      if IsContain SerialNums (SN device) && negb (String.eqb (SN device) "")
      then keptDevices SerialNums rest
      else
        if String.eqb (SN device) ""
        then keptDevices SerialNums rest
        else device :: keptDevices (SerialNums ++ [SN device]) rest
  end.

Definition apiDevice (device : Device) : ApiDevice :=
  mkApiDevice (DBDF device) (Healthy device).

(** The advertised entries whose device has serial number [s], and the
    advertised entries of the device with id [id]. *)
Definition entriesForSerial (m : DeviceMap) (s : string)
    (resp : list ApiDevice) : list ApiDevice :=
  filter (λ e, SN (lookupDev m (ID e)) = s) resp.

Definition entriesForDevice (id : string) (resp : list ApiDevice)
    : list ApiDevice :=
  filter (λ e, ID e = id) resp.

(** ** The server object and its environment *)

(** Go's [error] values, as far as server.go tells them apart:
    [os.IsNotExist] holds of [ErrNotExist] only. *)
Inductive GoError :=
| ErrNotExist
| ErrOther (msg : string).

Definition IsNotExist (e : GoError) : bool :=
  match e with
  | ErrNotExist => true
  | ErrOther _ => false
  end.

(** What the operating system and the libraries answer: [None] is a [nil]
    error. [path_Join] is [path.Join]. *)
Record Env := mkEnv {
  os_Remove : string → option GoError;
  net_Listen : string → option GoError;
  grpc_Dial : string → option GoError;
  path_Join : string → string → string
}.

(** What a call does to the world outside the server object, in the order it
    does it. *)
Inductive Event :=
| EvRemove (path : string)
| EvListen (path : string)
| EvGrpcServe (path : string)
| EvGrpcStop
| EvClose (chan : string)
| EvChanSend (devType : string) (snapshot : DeviceMap)
| EvGo (devType : string) (snapshot : DeviceMap) (resourceName : string)
| EvStreamSend (resp : list ApiDevice).

(** A call either returns, or panics, or waits for ever on a channel nobody
    reads. *)
Inductive Outcome (A : Type) :=
| Done (a : A)
| Panic (msg : string)
| Blocked.
Arguments Done {A} a.
Arguments Panic {A} msg.
Arguments Blocked {A}.

#[global] Instance Outcome_bind : MBind Outcome := fun A B k o =>
  match o with
  | Done a => k a
  | Panic msg => Panic msg
  | Blocked => Blocked
  end.

(** A channel: whether it has been closed, the values sent and not yet
    received, and its capacity. *)
Record Chan (A : Type) := mkChan {
  chan_closed : bool;
  chan_buf : list A;
  chan_cap : nat
}.
Arguments mkChan {A} _ _ _.
Arguments chan_closed {A} _.
Arguments chan_buf {A} _.
Arguments chan_cap {A} _.

Definition makeChan {A : Type} (cap : nat) : Chan A := mkChan false [] cap.

(** [close(c)]: closing a closed channel panics. *)
Definition closeChan {A : Type} (c : Chan A) : Outcome (Chan A) :=
  if chan_closed c then Panic "close of closed channel"
  else Done (mkChan true (chan_buf c) (chan_cap c)).

(** [c <- x] with no receiver waiting: a send on a closed channel panics, a
    send on a full one waits. *)
Definition sendChan {A : Type} (c : Chan A) (x : A) : Outcome (Chan A) :=
  if chan_closed c then Panic "send on closed channel"
  else if length (chan_buf c) <? chan_cap c
       then Done (mkChan false (chan_buf c ++ [x]) (chan_cap c))
       else Blocked.

(** [FPGADevicePluginServer] (lines 39-47). [server] is [None] for a [nil]
    [*grpc.Server]; the value it holds otherwise is the socket it serves. *)
Record FPGADevicePluginServer := mkServer {
  devType : string;
  devices : DeviceMap;
  socket : string;
  stop : Chan unit;
  update : Chan DeviceMap;
  server : option string
}.

(** [pluginapi.DevicePluginPath], the directory of the plugin sockets. *)
Definition serverSockPath : string := "/var/lib/kubelet/device-plugins/".

(** NewFPGADevicePluginServer (lines 147-155). *)
Definition NewFPGADevicePluginServer (env : Env) (devType : string)
    (devices : DeviceMap) : FPGADevicePluginServer :=
  mkServer devType devices
           (path_Join env serverSockPath (devType +:+ "-fpga.sock"))
           (makeChan 0) (makeChan 1) None.

(** cleanup (lines 239-245). *)
Definition cleanup (env : Env) (m : FPGADevicePluginServer)
    : list Event * option GoError :=
  ([EvRemove (socket m)],
   match os_Remove env (socket m) with
   | Some err => if negb (IsNotExist err) then Some err else None
   | None => None
   end).

(** Stop (lines 226-237): the server after the call, what the call did, and
    the error it returns. *)
Definition Stop (env : Env) (m : FPGADevicePluginServer)
    : Outcome (FPGADevicePluginServer * list Event * option GoError) :=
  match server m with
  | None => Done (m, [], None)
  | Some _ =>
      stop' ← closeChan (stop m);
      update' ← closeChan (update m);
      let m' := mkServer (devType m) (devices m) (socket m) stop' update' None in
      let '(evs, err) := cleanup env m' in
      Done (m', [EvGrpcStop; EvClose "stop"; EvClose "update"] ++ evs, err)
  end.

(** Start (lines 201-223). [waitForServer] returns what the dial returns. *)
Definition Start (env : Env) (m : FPGADevicePluginServer)
    : FPGADevicePluginServer * list Event * option GoError :=
  let '(evs, err) := cleanup env m in
  match err with
  | Some e => (m, evs, Some e)
  | None =>
      match net_Listen env (socket m) with
      | Some e => (m, evs ++ [EvListen (socket m)], Some e)
      | None =>
          let m' := mkServer (devType m) (devices m) (socket m)
                             (stop m) (update m) (Some (socket m)) in
          (m', evs ++ [EvListen (socket m); EvGrpcServe (socket m)],
           grpc_Dial env (socket m))
      end
  end.

(** sendDevices (lines 285-310): [send] is [s.Send]. The error of the [Stop]
    on line 305 is dropped. *)
Definition sendDevices (env : Env) (π : RangeOrder)
    (send : list ApiDevice → option GoError) (m : FPGADevicePluginServer)
    : Outcome (FPGADevicePluginServer * list Event * option GoError) :=
  let resp := advertised π (devices m) in
  match send resp with
  | Some err =>
      '(m', evs, _) ← Stop env m;
      Done (m', EvStreamSend resp :: evs, Some err)
  | None => Done (m, [EvStreamSend resp], None)
  end.

(** The states a server object goes through: created (no gRPC server,
    channels open), serving (gRPC server set, channels open), stopped (no
    gRPC server). [Serve] is called once per server object, so a server that
    holds a gRPC server has open channels. *)
Definition lifecycle (m : FPGADevicePluginServer) : Prop :=
  is_Some (server m) →
  chan_closed (stop m) = false ∧ chan_closed (update m) = false.

#[global] Instance lifecycle_dec (m : FPGADevicePluginServer)
  : Decision (lifecycle m).
Proof. unfold lifecycle. apply _. Defined.

(** ** The plugin: inventory and server registry *)

(** [FPGADevicePlugin] (lines 49-53): the fields [devices] and [servers].
    The registry holds pointers; each server object is reached through its
    registry entry only, so the entry holds the object. *)
Record FPGADevicePlugin := mkPlugin {
  plugin_devices : Inventory;
  plugin_servers : gmap string FPGADevicePluginServer
}.

(** NewFPGADevicePlugin (lines 56-63): both maps start empty. *)
Definition NewFPGADevicePlugin : FPGADevicePlugin := mkPlugin ∅ ∅.

(** The poll loop's grouping of the device list (lines 76-88). [subMap] is
    the map stored in [devMap], so the assignment on line 82 changes the
    stored map. *)
Definition groupStep (devMap : Inventory) (device : Device) : Inventory :=
  let DSAtype := shellVer device +:+ "-" +:+ timestamp device in
  let id := DBDF device in
  match devMap !! DSAtype with
  | Some subMap => <[DSAtype := <[id := device]> subMap]> devMap
  | None => <[DSAtype := <[id := device]> ∅]> devMap
  end.

Definition groupDevices (devices : list Device) : Inventory :=
  foldl groupStep ∅ devices.

(** [reflect.DeepEqual] on two [map[string]Device]: the maps hold structs of
    strings, so it is equality of the maps' contents. (It also tells a [nil]
    map from an empty one; the poll loop builds its maps with [make].) *)
Definition DeepEqual (a b : DeviceMap) : bool := bool_decide (a = b).

(** ** checkDeviceUpdate (server.go, lines 98-144) *)

(** Lines 103-112: the state is [n], [updated] and [removed]. *)
Definition diffStep (st : Inventory * Inventory * Inventory)
    (entry : string * DeviceMap) : Inventory * Inventory * Inventory :=
  let '(n, updated, removed) := st in
  let '(oDevType, oDevices) := entry in
  match n !! oDevType with
  | Some nDevices =>
      (delete oDevType n,
       if negb (DeepEqual oDevices nDevices)
       then <[oDevType := nDevices]> updated else updated,
       removed)
  | None => (n, updated, <[oDevType := oDevices]> removed)
  end.

(** Lines 99-115: [added], [updated] and [removed]. *)
Definition deviceDiff (π : RangeOrder) (old n : Inventory)
    : Inventory * Inventory * Inventory :=
  let '(n', updated, removed) :=
    foldl diffStep (n, ∅, ∅) (range π AtCheckOld old) in
  let added :=
    foldl (fun (added : Inventory) (e : string * DeviceMap) =>
             <[e.1 := e.2]> added)
          ∅ (range π AtCheckNew n') in
  (added, updated, removed).

(** The DeviceTypes the specification calls unchanged: present in both
    inventories with equal device maps. *)
Definition unchangedTypes (previous current : Inventory) : gset string :=
  dom (filter (λ kv, previous !! kv.1 = Some kv.2) current).

Fixpoint foldOutcome {A B : Type} (f : A → B → Outcome A) (a : A)
    (l : list B) : Outcome A :=
  match l with
  | [] => Done a
  | b :: l' => a' ← f a b; foldOutcome f a' l'
  end.

(** Lines 118-129. The goroutine is recorded as started, with the arguments
    it is given. *)
Definition addStep (env : Env) (st : FPGADevicePlugin * list Event)
    (e : string * DeviceMap) : FPGADevicePlugin * list Event :=
  let '(m, log) := st in
  let '(aDevType, aDevices) := e in
  let devicePluginServer := NewFPGADevicePluginServer env aDevType aDevices in
  (mkPlugin (<[aDevType := aDevices]> (plugin_devices m))
            (<[aDevType := devicePluginServer]> (plugin_servers m)),
   log ++ [EvGo aDevType aDevices (resourceNamePrefix +:+ "-" +:+ aDevType)]).

(** Lines 132-137. [Stop] on a missing registry entry is a method call on a
    [nil] pointer. *)
Definition removeStep (env : Env) (st : FPGADevicePlugin * list Event)
    (e : string * DeviceMap) : Outcome (FPGADevicePlugin * list Event) :=
  let '(m, log) := st in
  let '(rDevType, _) := e in
  match plugin_servers m !! rDevType with
  | None => Panic "nil pointer dereference"
  | Some srv =>
      '(_, evs, _) ← Stop env srv;
      Done (mkPlugin (delete rDevType (plugin_devices m))
                     (delete rDevType (plugin_servers m)),
            log ++ evs)
  end.

(** Lines 140-143. *)
Definition updateStep (st : FPGADevicePlugin * list Event)
    (e : string * DeviceMap) : Outcome (FPGADevicePlugin * list Event) :=
  let '(m, log) := st in
  let '(uDevType, uDevices) := e in
  let devices' := <[uDevType := uDevices]> (plugin_devices m) in
  match plugin_servers m !! uDevType with
  | None => Panic "nil pointer dereference"
  | Some srv =>
      update' ← sendChan (update srv) uDevices;
      let srv' := mkServer (devType srv) (devices srv) (socket srv)
                           (stop srv) update' (server srv) in
      Done (mkPlugin devices' (<[uDevType := srv']> (plugin_servers m)),
            log ++ [EvChanSend uDevType uDevices])
  end.

Definition checkDeviceUpdate (env : Env) (π : RangeOrder)
    (m : FPGADevicePlugin) (n : Inventory)
    : Outcome (FPGADevicePlugin * list Event) :=
  let '(added, updated, removed) := deviceDiff π (plugin_devices m) n in
  let st1 := foldl (addStep env) (m, []) (range π AtCheckAdded added) in
  st2 ← foldOutcome (removeStep env) st1 (range π AtCheckRemoved removed);
  foldOutcome updateStep st2 (range π AtCheckUpdated updated).

(** The registry invariant of the specification: a server is registered for
    a DeviceType exactly when the stored inventory holds that DeviceType. *)
Definition registryInvariant (m : FPGADevicePlugin) : Prop :=
  dom (plugin_servers m) = dom (plugin_devices m).

(** Every registered server is in a lifecycle state and has room in its
    update channel. *)
Definition readyServers (m : FPGADevicePlugin) : Prop :=
  map_Forall (λ _ srv, lifecycle srv
                       ∧ chan_closed (update srv) = false
                       ∧ length (chan_buf (update srv)) < chan_cap (update srv))
             (plugin_servers m).

(** The server object after a snapshot has been put into its update
    channel. *)
Definition delivered (srv : FPGADevicePluginServer) (snapshot : DeviceMap)
    : FPGADevicePluginServer :=
  mkServer (devType srv) (devices srv) (socket srv) (stop srv)
           (mkChan false (chan_buf (update srv) ++ [snapshot])
                   (chan_cap (update srv)))
           (server srv).






(** What happens to the plugin between its creation and any later moment:
    reconcile cycles, one at a time, and in between them the goroutines of
    the servers ([Serve], [ListAndWatch], [sendDevices]), each of which works
    on the server object registered for its DeviceType and leaves it in some
    other state. *)
Inductive PluginStep :=
| Reconcile (env : Env) (π : RangeOrder) (n : Inventory)
| ServerAct (devType : string) (after : FPGADevicePluginServer).

Definition runStep (m : FPGADevicePlugin) (step : PluginStep)
    : Outcome FPGADevicePlugin :=
  match step with
  | Reconcile env π n =>
      '(m', _) ← checkDeviceUpdate env π m n;
      Done m'
  | ServerAct devType after =>
      match plugin_servers m !! devType with
      | None => Panic "nil pointer dereference"
      | Some _ =>
          Done (mkPlugin (plugin_devices m)
                         (<[devType := after]> (plugin_servers m)))
      end
  end.

Definition runSteps (m : FPGADevicePlugin) (steps : list PluginStep)
    : Outcome FPGADevicePlugin :=
  foldOutcome runStep m steps.

(** The inventory of the last reconcile cycle of a run, [start] if there was
    none. *)
Definition lastInventory (start : Inventory) (steps : list PluginStep)
    : Inventory :=
  foldl (fun inv step =>
           match step with
           | Reconcile _ _ n => n
           | ServerAct _ _ => inv
           end) start steps.

(** ** Register and Serve (server.go, lines 247-273 and 405-424) *)

(** [pluginapi.Version] and [pluginapi.KubeletSocket]. *)
Definition pluginapi_Version : string := "v1beta1".
Definition KubeletSocket : string :=
  "/var/lib/kubelet/device-plugins/kubelet.sock".

Record RegisterRequest := mkRegisterRequest {
  Version : string;
  Endpoint : string;
  ResourceName : string
}.

(** What the kubelet side answers: the dial of its socket, and the
    [Register] call. [path_Base] is [path.Base]. *)
Record Kubelet := mkKubelet {
  kubelet_Dial : string → option GoError;
  kubelet_Register : RegisterRequest → option GoError;
  path_Base : string → string
}.

(** What [Serve] does: the events of [Start] and [Stop], and in between the
    dial of the kubelet and the registration request. *)
Inductive ServeEvent :=
| OfServer (e : Event)
| EvKubeletDial (endpoint : string)
| EvRegister (reqt : RegisterRequest).

(** Register (lines 248-273). *)
Definition Register (kub : Kubelet) (m : FPGADevicePluginServer)
    (kubeletEndpoint resourceName : string)
    : list ServeEvent * option GoError :=
  match kubelet_Dial kub kubeletEndpoint with
  | Some err => ([EvKubeletDial kubeletEndpoint], Some err)
  | None =>
      let reqt := mkRegisterRequest pluginapi_Version
                                    (path_Base kub (socket m)) resourceName in
      ([EvKubeletDial kubeletEndpoint; EvRegister reqt],
       kubelet_Register kub reqt)
  end.

(** Serve (lines 406-424). The error of the [Stop] on line 418 is dropped. *)
Definition Serve (env : Env) (kub : Kubelet) (m : FPGADevicePluginServer)
    (resourceName : string)
    : Outcome (FPGADevicePluginServer * list ServeEvent * option GoError) :=
  let '(m1, evs, err) := Start env m in
  match err with
  | Some e => Done (m1, OfServer <$> evs, Some e)
  | None =>
      let '(revs, rerr) := Register kub m1 KubeletSocket resourceName in
      match rerr with
      | Some e =>
          '(m2, sevs, _) ← Stop env m1;
          Done (m2, (OfServer <$> evs) ++ revs ++ (OfServer <$> sevs), Some e)
      | None => Done (m1, (OfServer <$> evs) ++ revs, None)
      end
  end.

(** ** ListAndWatch (server.go, lines 313-322) *)

(** How a call of [ListAndWatch] stands: it has returned, or it waits for
    the next snapshot, or it has panicked. *)
Inductive Watch :=
| WatchReturned (m : FPGADevicePluginServer) (log : list Event)
                (err : option GoError)
| WatchWaiting (m : FPGADevicePluginServer) (log : list Event)
| WatchPanicked (msg : string).

(** The loop [for m.devices = range m.update]: [pending] is what the update
    channel holds, [i] counts the snapshots received, and [πs i] is the
    iteration order the [i]-th [sendDevices] meets. With nothing pending the
    loop ends if the channel is closed and waits if it is open. *)
Fixpoint watchLoop (env : Env) (πs : nat → RangeOrder)
    (send : list ApiDevice → option GoError) (i : nat)
    (pending : list DeviceMap) (m : FPGADevicePluginServer)
    (log : list Event) : Watch :=
  match pending with
  | [] =>
      if chan_closed (update m) then WatchReturned m log None
      else WatchWaiting m log
  | snapshot :: rest =>
      let m1 := mkServer (devType m) snapshot (socket m) (stop m)
                         (mkChan (chan_closed (update m)) rest
                                 (chan_cap (update m)))
                         (server m) in
      match sendDevices env (πs i) send m1 with
      | Done (m2, evs, Some e) => WatchReturned m2 (log ++ evs) (Some e)
      | Done (m2, evs, None) =>
          watchLoop env πs send (S i) rest m2 (log ++ evs)
      | Panic msg => WatchPanicked msg
      | Blocked => WatchWaiting m1 log
      end
  end.

Definition ListAndWatch (env : Env) (πs : nat → RangeOrder)
    (send : list ApiDevice → option GoError) (m : FPGADevicePluginServer)
    : Watch :=
  watchLoop env πs send 0 (chan_buf (update m)) m [].

(** The server object once [ListAndWatch] has received every snapshot its
    update channel held: its device map is the last of them. *)
Definition drained (m : FPGADevicePluginServer) : FPGADevicePluginServer :=
  mkServer (devType m) (default (devices m) (last (chan_buf (update m))))
           (socket m) (stop m)
           (mkChan (chan_closed (update m)) [] (chan_cap (update m)))
           (server m).

(** The field [m.devices] as a call of [Allocate] on the server [m] reads
    it when [ListAndWatch] receives what the update channel holds after the
    reads before [cut] and before the read [cut]. *)
Definition fieldAcross (m : FPGADevicePluginServer) (cut : FieldRead)
    : DevicesField :=
  λ r, if readBefore r cut then devices m else devices (drained m).

(** One [EvStreamSend] per snapshot, the [j]-th advertised under the order
    [πs (i + j)]. *)
Definition streamSends (πs : nat → RangeOrder) (i : nat)
    (snapshots : list DeviceMap) : list Event :=
  imap (λ j snapshot, EvStreamSend (advertised (πs (i + j)) snapshot))
       snapshots.

(** ** The poll loop of NewFPGADevicePlugin (server.go, lines 65-93) *)

(** The DeviceType of a device (line 78). *)
Definition DSAtype (device : Device) : string :=
  shellVer device +:+ "-" +:+ timestamp device.

(** [answers] are the results of the calls of [GetDevices], in call order,
    [None] for an error. The loop sends one inventory per successful round on
    [updateChan]; a round whose first call fails calls again, and ends the
    loop if that call fails too. The result is the inventories sent and
    whether the loop has ended and closed the channel. *)
Fixpoint pollLoop (answers : list (option (list Device)))
    : list Inventory * bool :=
  match answers with
  | [] => ([], false)
  | Some devices :: rest =>
      let '(sent, closed) := pollLoop rest in
      (groupDevices devices :: sent, closed)
  | None :: [] => ([], false)
  | None :: Some devices :: rest =>
      let '(sent, closed) := pollLoop rest in
      (groupDevices devices :: sent, closed)
  | None :: None :: _ => ([], true)
  end.

(** Whether two calls of [GetDevices] in a row failed, and the answers
    before the first two such calls. *)
Fixpoint doubleFailure {A : Type} (answers : list (option A)) : bool :=
  match answers with
  | [] => false
  | None :: (None :: _) => true
  | _ :: rest => doubleFailure rest
  end.

Fixpoint untilDoubleFailure {A : Type} (answers : list (option A))
    : list (option A) :=
  match answers with
  | [] => []
  | None :: (None :: _) => []
  | answer :: rest => answer :: untilDoubleFailure rest
  end.

(** The inventory holds [device] under DeviceType [t] and id [id]. *)
Definition storedAt (inv : Inventory) (t id : string) (device : Device)
    : Prop :=
  ∃ sub, inv !! t = Some sub ∧ sub !! id = Some device.

(** ** Example device maps *)

Definition exampleDevice (id sn mgmt qdma : string) : Device :=
  mkDevice "v1" "t1" id "Healthy"
           (mkPairs mgmt ("/dev/dri/renderD-" +:+ id) qdma) sn.

(** The two functions of one card, as in the specification's scenario. *)
Definition cardFn0 : Device :=
  exampleDevice "0000:01:00.0" "X1" "/dev/xclmgmt-0" "".
Definition cardFn1 : Device :=
  exampleDevice "0000:01:00.1" "X1" "" "/dev/xfpga/dma-1".
Definition sharedSerialCard : DeviceMap :=
  <["0000:01:00.0" := cardFn0]> (<["0000:01:00.1" := cardFn1]> ∅).

(** Two devices whose serial number is the placeholder in lower case. *)
Definition lowerFn0 : Device := exampleDevice "0000:01:00.0" "f1-node" "" "".
Definition lowerFn1 : Device := exampleDevice "0000:01:00.1" "f1-node" "" "".
Definition lowerCasePlaceholderPair : DeviceMap :=
  <["0000:01:00.0" := lowerFn0]> (<["0000:01:00.1" := lowerFn1]> ∅).

(** Two devices that report no serial number. *)
Definition blankFn0 : Device := exampleDevice "0000:02:00.0" "" "" "".
Definition blankFn1 : Device := exampleDevice "0000:03:00.0" "" "" "".
Definition emptySerialPair : DeviceMap :=
  <["0000:02:00.0" := blankFn0]> (<["0000:03:00.0" := blankFn1]> ∅).

(** Serial numbers "ABC", "ABC" and "". *)
Definition abcFn0 : Device := exampleDevice "0000:01:00.0" "ABC" "" "".
Definition abcFn1 : Device := exampleDevice "0000:01:00.1" "ABC" "" "".
Definition dedupExample : DeviceMap :=
  <["0000:01:00.0" := abcFn0]>
    (<["0000:01:00.1" := abcFn1]> (<["0000:02:00.0" := blankFn0]> ∅)).

(** ** Example environments and servers *)

(** Nothing lies at the socket path, and the socket can be bound. *)
Definition quietEnv : Env :=
  mkEnv (λ _, Some ErrNotExist) (λ _, None) (λ _, None)
        (λ dir file, dir +:+ file).

(** The socket file cannot be removed. *)
Definition deniedEnv : Env :=
  mkEnv (λ _, Some (ErrOther "permission denied")) (λ _, None) (λ _, None)
        (λ dir file, dir +:+ file).

Definition createdServer : FPGADevicePluginServer :=
  NewFPGADevicePluginServer quietEnv "v1-t1" sharedSerialCard.

Definition servingServer : FPGADevicePluginServer :=
  (Start quietEnv createdServer).1.1.

(** A run: the card appears, its server comes up, one function of the card
    goes away, and then a card with another shell takes its place while the
    socket file cannot be removed. *)
Definition otherShellFn : Device :=
  mkDevice "v2" "t1" "0000:04:00.0" "Healthy"
           (mkPairs "" "/dev/dri/renderD-0000:04:00.0" "") "Y7".

Definition exampleRun : list PluginStep :=
  [Reconcile quietEnv listedOrder (groupDevices [cardFn0; cardFn1]);
   ServerAct "v1-t1" servingServer;
   Reconcile quietEnv reversedOrder (groupDevices [cardFn0]);
   Reconcile deniedEnv listedOrder (groupDevices [otherShellFn])].

(** A kubelet that accepts every registration, and one that refuses them. *)
Definition acceptingKubelet : Kubelet :=
  mkKubelet (λ _, None) (λ _, None) (λ p, p).

Definition refusingKubelet : Kubelet :=
  mkKubelet (λ _, None) (λ _, Some (ErrOther "registration refused"))
            (λ p, p).

(** A serving server with two snapshots pending, and a stream that takes
    everything, and one that takes nothing. *)
Definition watchedServer : FPGADevicePluginServer :=
  mkServer "v1-t1" sharedSerialCard (socket servingServer) (makeChan 0)
           (mkChan false [dedupExample; emptySerialPair] 1)
           (Some (socket servingServer)).

(** A serving server of the card, with the snapshot of the second cycle of
    [exampleRun] pending: function 1 of the card has gone away. *)
Definition updatedServer : FPGADevicePluginServer :=
  mkServer "v1-t1" sharedSerialCard (socket servingServer) (makeChan 0)
           (mkChan false [<["0000:01:00.0" := cardFn0]> ∅] 1)
           (Some (socket servingServer)).

Definition openStream : list ApiDevice → option GoError := λ _, None.

Definition brokenStream : list ApiDevice → option GoError :=
  λ _, Some (ErrOther "transport is closing").

(** The plugin after the first cycle of [exampleRun] and the start of its
    server. *)
Definition servingPlugin : FPGADevicePlugin :=
  mkPlugin (groupDevices [cardFn0; cardFn1])
           (<["v1-t1" := servingServer]> ∅).

(** The same plugin after [sendDevices] has stopped the server. *)
Definition stoppedPlugin : FPGADevicePlugin :=
  mkPlugin (groupDevices [cardFn0; cardFn1])
           (<["v1-t1" := mkServer "v1-t1" sharedSerialCard
                                  (socket servingServer)
                                  (mkChan true [] 0) (mkChan true [] 1) None]> ∅).

(** ** Tactics *)

(** Settles a decidable proposition about concrete data by evaluating its
    decision procedure. *)
Ltac decide_by_compute :=
  apply (bool_decide_unpack _); vm_compute; exact I.

(** Replaces the entries of the concrete map [m] by their list in [H]. *)
Ltac evaluate_entries m H :=
  let l := eval vm_compute in (map_to_list m) in
  let Hl := fresh "Hl" in
  assert (map_to_list m = l) as Hl by (vm_compute; reflexivity);
  rewrite Hl in H; clear Hl.

(** * Properties *)

#[local] Set Warnings "-clear-no-such-hyp".

(** ** Iteration orders *)

Section range_facts.
Context {V : Type} (π : RangeOrder) (s : RangeSite) (m : gmap string V).

Lemma range_Permutation : range π s m ≡ₚ map_to_list m.
Proof. apply order_perm. Qed.

Lemma elem_of_range k v : (k, v) ∈ range π s m ↔ m !! k = Some v.
Proof. rewrite range_Permutation. apply elem_of_map_to_list. Qed.

Lemma NoDup_range_keys : NoDup (range π s m).*1.
Proof. rewrite range_Permutation. apply NoDup_fst_map_to_list. Qed.

Lemma elem_of_range_keys k : k ∈ (range π s m).*1 ↔ is_Some (m !! k).
Proof.
  rewrite list_elem_of_fmap. split.
  - intros [[k' v] [-> Hin]]. apply elem_of_range in Hin. eauto.
  - intros [v Hv]. exists (k, v). split; [done|]. by apply elem_of_range.
Qed.
End range_facts.

(** ** Case folding *)

Lemma nat_of_ascii_lt c : nat_of_ascii c < 256.
Proof. apply nat_ascii_bounded. Qed.

Lemma nat_of_ascii_inj a b : nat_of_ascii a = nat_of_ascii b → a = b.
Proof.
  intros H. rewrite <- (ascii_nat_embedding a), <- (ascii_nat_embedding b).
  by rewrite H.
Qed.

Lemma nat_of_lowerByte c :
  nat_of_ascii (lowerByte c) =
  if (65 <=? nat_of_ascii c) && (nat_of_ascii c <=? 90)
  then nat_of_ascii c + 32 else nat_of_ascii c.
Proof.
  unfold lowerByte. pose proof (nat_of_ascii_lt c).
  destruct (_ && _) eqn:E; [|done].
  apply andb_true_iff in E as [?%Nat.leb_le ?%Nat.leb_le].
  apply nat_ascii_embedding. lia.
Qed.

Lemma foldEqByte_lower a b : foldEqByte a b = true ↔ lowerByte a = lowerByte b.
Proof.
  split.
  - intros H. apply nat_of_ascii_inj. rewrite !nat_of_lowerByte.
    unfold foldEqByte in H.
    destruct (Nat.eqb_spec (nat_of_ascii a) (nat_of_ascii b)) as [->|Hne]; [done|].
    apply andb_true_iff in H as [H ?%Nat.eqb_eq].
    apply andb_true_iff in H as [?%Nat.leb_le ?%Nat.leb_le].
    repeat match goal with
           | |- context [?x <=? ?y] => destruct (Nat.leb_spec x y)
           end; simpl; lia.
  - intros H%(f_equal nat_of_ascii). rewrite !nat_of_lowerByte in H.
    unfold foldEqByte.
    destruct (Nat.eqb_spec (nat_of_ascii a) (nat_of_ascii b)) as [|Hne]; [done|].
    repeat match type of H with
           | context [?x <=? ?y] => destruct (Nat.leb_spec x y)
           end; simpl in H;
    repeat match goal with
           | |- context [?x <=? ?y] => destruct (Nat.leb_spec x y)
           | |- context [?x =? ?y] => destruct (Nat.eqb_spec x y)
           end; simpl; try done; lia.
Qed.

Lemma EqualFold_caseVariant s t : EqualFold s t = true ↔ caseVariant s t.
Proof.
  unfold caseVariant. revert t.
  induction s as [|a s IH]; intros [|b t]; simpl; try done.
  destruct (foldEqByte a b) eqn:E.
  - apply foldEqByte_lower in E. rewrite IH. split; [by intros ->; rewrite E|].
    by intros [=].
  - split; [done|]. intros [= H _]. apply foldEqByte_lower in H. congruence.
Qed.

Lemma EqualFold_false_iff s t : EqualFold s t = false ↔ ¬ caseVariant s t.
Proof.
  rewrite <- EqualFold_caseVariant. by destruct (EqualFold s t).
Qed.

(** ** IsContain *)

Lemma IsContain_true_iff items item :
  IsContain items item = true ↔ item ∈ items ∧ EqualFold item AWS_SN = false.
Proof.
  induction items as [|x items IH]; simpl.
  - split; [done|]. intros [H _]. by apply elem_of_nil in H.
  - destruct (String.eqb_spec x item) as [->|Hne]; simpl.
    + destruct (EqualFold item AWS_SN) eqn:E; simpl.
      * rewrite IH. split; [by intros [_ ?]|]. by intros [_ ?].
      * split; [|done]. intros _. split; [left|done].
    + rewrite IH, elem_of_cons. split; [intros [? ?]; by auto|].
      intros [[?|?] ?]; [congruence|done].
Qed.

Lemma IsContain_false_iff items item :
  IsContain items item = false ↔ item ∉ items ∨ EqualFold item AWS_SN = true.
Proof.
  destruct (IsContain items item) eqn:E.
  - apply IsContain_true_iff in E as [? E]. split; [done|].
    intros [?|?]; [done|congruence].
  - split; [|done]. intros _.
    destruct (EqualFold item AWS_SN) eqn:F; [by right|left].
    intros Hin. assert (IsContain items item = true) by by apply IsContain_true_iff.
    congruence.
Qed.

(** ** deviceExists *)

Lemma deviceExists_loop_true_iff entries id :
  deviceExists_loop entries id = true ↔ id ∈ entries.*1.
Proof.
  induction entries as [|[k d] entries IH]; simpl.
  - split; [done|]. intros H. by apply elem_of_nil in H.
  - destruct (String.eqb_spec k id) as [->|Hne].
    + split; [|done]. intros _. left.
    + rewrite IH, elem_of_cons. split; [by auto|]. intros [?|?]; [congruence|done].
Qed.

Lemma deviceExists_true_iff π s (m : DeviceMap) id :
  deviceExists π s m id = true ↔ is_Some (m !! id).
Proof.
  unfold deviceExists. rewrite deviceExists_loop_true_iff.
  apply elem_of_range_keys.
Qed.

Lemma deviceExists_lookup π s (m : DeviceMap) id dev :
  m !! id = Some dev → deviceExists π s m id = true.
Proof. intros H. apply deviceExists_true_iff. eauto. Qed.

(** ** Allocate: the serial-number expansion *)

Lemma serialStep_prefix m id2 arr device :
  arr `prefix_of` serialStep m id2 arr device.
Proof.
  unfold serialStep. case_match; [by apply prefix_app_r|done].
Qed.

Lemma serialFold_prefix m id2 devs arr :
  arr `prefix_of` foldl (serialStep m id2) arr devs.
Proof.
  revert arr. induction devs as [|d devs IH]; intros arr; simpl; [done|].
  etrans; [apply (serialStep_prefix m id2 arr d)|apply IH].
Qed.

Lemma serialPass_prefix π m creq id2 arr :
  arr `prefix_of` serialPass π m creq id2 arr.
Proof. apply serialFold_prefix. Qed.

Lemma serialOuter_prefix π m creq idxs arr :
  arr `prefix_of` foldl (fun arr id2 => serialPass π m creq id2 arr) arr idxs.
Proof.
  revert arr. induction idxs as [|i idxs IH]; intros arr; simpl; [done|].
  etrans; [apply (serialPass_prefix π m creq i arr)|apply IH].
Qed.

Lemma serialExpand_prefix π m creq ids :
  ids `prefix_of` serialExpand π m creq ids.
Proof. apply serialOuter_prefix. Qed.

Lemma prefix_elem_of {A} (l1 l2 : list A) x : l1 `prefix_of` l2 → x ∈ l1 → x ∈ l2.
Proof. intros [k ->] ?. apply elem_of_app. by left. Qed.

Lemma prefix_nth (l1 l2 : list string) i :
  l1 `prefix_of` l2 → i < length l1 → nth i l2 "" = nth i l1 "".
Proof. intros [k ->] ?. by apply app_nth1. Qed.

Lemma prefix_nth_lookup (l1 l2 : list string) i x :
  l1 `prefix_of` l2 → l1 !! i = Some x → nth i l2 "" = x.
Proof.
  intros Hp Hi. rewrite (prefix_nth l1 l2 i Hp); [|by eapply lookup_lt_Some].
  by apply nth_lookup_Some with (d := "") in Hi.
Qed.

(** What a pass appends: ids of devices that share the serial number of the
    requested device and are not placeholder devices. *)
Lemma serialFold_elem_of m id2 devs arr id :
  id2 < length arr →
  id ∈ foldl (serialStep m id2) arr devs →
  id ∈ arr ∨
  ∃ device, device ∈ devs ∧ id = DBDF device
            ∧ EqualFold (SN device) AWS_SN = false
            ∧ SN device = SN (lookupDev m (nth id2 arr "")).
Proof.
  revert arr. induction devs as [|d devs IH]; intros arr Hlt; simpl; [by left|].
  intros Hin.
  pose proof (serialStep_prefix m id2 arr d) as Hp.
  apply IH in Hin; [|eapply Nat.lt_le_trans; [done|by apply prefix_length]].
  rewrite (prefix_nth _ _ _ Hp Hlt) in Hin.
  destruct Hin as [Hin|(dev & ? & ? & ? & ?)].
  - unfold serialStep in Hin. case_match eqn:E; [|by left].
    apply elem_of_app in Hin as [?|Hin]; [by left|].
    apply list_elem_of_singleton in Hin as ->.
    apply andb_true_iff in E as [E _]. apply andb_true_iff in E as [E1 E2].
    right. exists d. split; [left|]. split; [done|].
    split; [by apply negb_true_iff|by apply String.eqb_eq].
  - right. exists dev. split; [by right|done].
Qed.

(** What a pass is sure to append. *)
Lemma serialFold_adds m id2 devs arr device :
  id2 < length arr →
  device ∈ devs →
  SN device = SN (lookupDev m (nth id2 arr "")) →
  EqualFold (SN device) AWS_SN = false →
  DBDF device ∈ foldl (serialStep m id2) arr devs.
Proof.
  revert arr. induction devs as [|d devs IH]; intros arr Hlt Hin Hsn Hfold; simpl.
  - by apply elem_of_nil in Hin.
  - pose proof (serialStep_prefix m id2 arr d) as Hp.
    apply elem_of_cons in Hin as [->|Hin].
    + eapply prefix_elem_of; [apply serialFold_prefix|].
      unfold serialStep. rewrite (proj2 (String.eqb_eq _ _) Hsn), Hfold. simpl.
      destruct (IsContain arr (DBDF d)) eqn:E; simpl.
      * by apply IsContain_true_iff in E as [? _].
      * apply elem_of_app. right. left.
    + apply IH; [|done| |done].
      * eapply Nat.lt_le_trans; [done|by apply prefix_length].
      * by rewrite (prefix_nth _ _ _ Hp Hlt).
Qed.

Lemma elem_of_range_values {V} π s (m : gmap string V) v :
  v ∈ (range π s m).*2 ↔ ∃ k, m !! k = Some v.
Proof.
  rewrite list_elem_of_fmap. split.
  - intros [[k v'] [-> Hin]]. exists k. by apply elem_of_range in Hin.
  - intros [k Hk]. exists (k, v). split; [done|]. by apply elem_of_range.
Qed.

Lemma serialPass_adds π m creq id2 arr y Y :
  keyedById m → id2 < length arr →
  m !! y = Some Y →
  SN Y = SN (lookupDev m (nth id2 arr "")) →
  EqualFold (SN Y) AWS_SN = false →
  y ∈ serialPass π m creq id2 arr.
Proof.
  intros Hkey Hlt HY Hsn Hfold.
  rewrite <- (Hkey y Y HY).
  apply serialFold_adds; [done| |done|done].
  apply elem_of_range_values. eauto.
Qed.

Lemma serialPass_elem_of π m creq id2 arr id :
  keyedById m → id2 < length arr →
  id ∈ serialPass π m creq id2 arr →
  id ∈ arr ∨
  ∃ device, m !! id = Some device
            ∧ EqualFold (SN device) AWS_SN = false
            ∧ SN device = SN (lookupDev m (nth id2 arr "")).
Proof.
  intros Hkey Hlt Hin.
  apply serialFold_elem_of in Hin; [|done].
  destruct Hin as [?|(device & Hd & -> & ? & ?)]; [by left|].
  right. exists device. apply elem_of_range_values in Hd as [k Hk].
  by rewrite (Hkey k device Hk).
Qed.

Lemma serialOuter_adds π m creq ids idxs arr i x y Y :
  keyedById m → ids `prefix_of` arr →
  i ∈ idxs → ids !! i = Some x →
  m !! y = Some Y →
  SN Y = SN (lookupDev m x) →
  EqualFold (SN Y) AWS_SN = false →
  y ∈ foldl (fun arr id2 => serialPass π m creq id2 arr) arr idxs.
Proof.
  intros Hkey Hp Hi Hx HY Hsn Hfold. revert arr Hp.
  induction idxs as [|j idxs IH]; intros arr Hp; simpl.
  - by apply elem_of_nil in Hi.
  - apply elem_of_cons in Hi as [<-|Hi].
    + eapply prefix_elem_of; [apply serialOuter_prefix|].
      eapply serialPass_adds; [done| |done| |done].
      * eapply Nat.lt_le_trans; [by eapply lookup_lt_Some|by apply prefix_length].
      * by rewrite (prefix_nth_lookup _ _ _ _ Hp Hx).
    + apply IH; [done|]. etrans; [done|apply serialPass_prefix].
Qed.

Lemma serialOuter_elem_of π m creq ids idxs arr id :
  keyedById m → ids `prefix_of` arr →
  Forall (λ i, i < length ids) idxs →
  id ∈ foldl (fun arr id2 => serialPass π m creq id2 arr) arr idxs →
  id ∈ arr ∨
  ∃ device x, m !! id = Some device ∧ x ∈ ids
              ∧ EqualFold (SN device) AWS_SN = false
              ∧ SN device = SN (lookupDev m x).
Proof.
  intros Hkey Hp Hidx. revert arr Hp.
  induction Hidx as [|j idxs Hj Hidx IH]; intros arr Hp; simpl; [by left|].
  intros Hin.
  apply IH in Hin; [|etrans; [done|apply serialPass_prefix]].
  destruct Hin as [Hin|?]; [|by right].
  apply serialPass_elem_of in Hin; [|done|];
    [|eapply Nat.lt_le_trans; [done|by apply prefix_length]].
  destruct Hin as [?|(device & ? & ? & Hsn)]; [by left|].
  right. destruct (lookup_lt_is_Some_2 ids j Hj) as [x Hx].
  rewrite (prefix_nth_lookup _ _ _ _ Hp Hx) in Hsn.
  exists device, x. split; [done|]. split; [|done].
  by eapply list_elem_of_lookup_2.
Qed.

(** The expanded slice: the requested ids, then every device that shares the
    serial number of a requested id and is not a placeholder device. *)
Lemma serialExpand_elem_of π m creq ids id :
  keyedById m →
  id ∈ serialExpand π m creq ids ↔
  id ∈ ids ∨
  ∃ device x, m !! id = Some device ∧ x ∈ ids
              ∧ EqualFold (SN device) AWS_SN = false
              ∧ SN device = SN (lookupDev m x).
Proof.
  intros Hkey. split.
  - apply serialOuter_elem_of; [done|done|].
    apply Forall_forall. intros i Hi. apply elem_of_seq in Hi. lia.
  - intros [Hin|(device & x & Hd & Hx & Hfold & Hsn)].
    + by eapply prefix_elem_of; [apply serialExpand_prefix|].
    + apply list_elem_of_lookup in Hx as [i Hi].
      eapply (serialOuter_adds π m creq ids _ ids i x id device); try done.
      apply elem_of_seq. apply lookup_lt_Some in Hi. lia.
Qed.

Lemma serialExpand_known π m creq ids :
  keyedById m →
  Forall (λ id, is_Some (m !! id)) ids →
  Forall (λ id, is_Some (m !! id)) (serialExpand π m creq ids).
Proof.
  intros Hkey Hall. apply Forall_forall. intros id Hin.
  apply serialExpand_elem_of in Hin; [|done].
  destruct Hin as [Hin|(device & ? & ? & _)]; [|by eauto].
  by eapply Forall_forall in Hall.
Qed.

(** ** Allocate: resolving the ids *)

Lemma resolveLoop_known π m creq idx ids cres :
  Forall (λ id, is_Some (m !! id)) ids →
  resolveLoop π (steady m) creq idx ids cres = Ok (grantAll m ids cres).
Proof.
  intros Hall. revert idx cres.
  induction Hall as [|id ids [dev Hdev] _ IH]; intros idx cres; simpl; [done|].
  rewrite Hdev, (deviceExists_lookup _ _ _ _ _ Hdev). simpl.
  rewrite IH. unfold grantAll, lookupDev. simpl. by rewrite Hdev.
Qed.

Lemma resolveLoop_Err π m creq idx ids cres e :
  resolveLoop π (steady m) creq idx ids cres = Err e →
  ∃ id, e = NonExistingDevice id ∧ id ∈ ids ∧ m !! id = None.
Proof.
  revert idx cres. induction ids as [|id ids IH]; intros idx cres; simpl; [done|].
  destruct (m !! id) as [dev|] eqn:Hdev.
  - rewrite (deviceExists_lookup _ _ _ _ _ Hdev). simpl.
    intros (id' & ? & ? & ?)%IH. exists id'. split; [done|]. split; [by right|done].
  - intros [= <-]. exists id. split; [done|]. split; [left|done].
Qed.

Lemma resolveLoop_Ok π m creq idx ids cres cres' :
  resolveLoop π (steady m) creq idx ids cres = Ok cres' →
  Forall (λ id, is_Some (m !! id)) ids ∧ cres' = grantAll m ids cres.
Proof.
  intros Hok.
  assert (Forall (λ id, is_Some (m !! id)) ids) as Hall.
  { revert idx cres Hok.
    induction ids as [|id ids IH]; intros idx cres; simpl; [done|].
    destruct (m !! id) as [dev|] eqn:Hdev; [|done].
    rewrite (deviceExists_lookup _ _ _ _ _ Hdev). simpl.
    intros ?%IH. constructor; [by rewrite Hdev|done]. }
  split; [done|]. rewrite (resolveLoop_known _ _ _ _ _ _ Hall) in Hok. congruence.
Qed.

Lemma resolveLoop_unknown π m creq idx ids cres id :
  id ∈ ids → m !! id = None →
  ∃ id', m !! id' = None ∧ id' ∈ ids
         ∧ resolveLoop π (steady m) creq idx ids cres
           = Err (NonExistingDevice id').
Proof.
  intros Hin Hnone.
  destruct (resolveLoop π (steady m) creq idx ids cres) as [cres'|e] eqn:E.
  - apply resolveLoop_Ok in E as [Hall _].
    eapply Forall_forall in Hall; [|done]. rewrite Hnone in Hall.
    by destruct Hall.
  - apply resolveLoop_Err in E as (id' & -> & ? & ?). by exists id'.
Qed.

(** ** Allocate: the shape of a container response *)

Lemma nodePaths_alt dev cres :
  grantNodes dev cres =
  foldl (fun cres p => appendNode p cres) cres (nodePaths dev).
Proof.
  unfold grantNodes, nodePaths.
  destruct (String.eqb_spec (Mgmt (Nodes dev)) "") as [->|?],
           (String.eqb_spec (Qdma (Nodes dev)) "") as [->|?];
    repeat case_decide; simpl; congruence.
Qed.

Lemma appendNodes_Devices ps cres :
  Devices (foldl (fun cres p => appendNode p cres) cres ps)
  = Devices cres ++ (nodeSpec <$> ps).
Proof.
  revert cres. induction ps as [|p ps IH]; intros cres; simpl.
  - by rewrite app_nil_r.
  - rewrite IH. simpl. by rewrite <- app_assoc.
Qed.

Lemma appendNodes_Mounts ps cres :
  Mounts (foldl (fun cres p => appendNode p cres) cres ps)
  = Mounts cres ++ (nodeMount <$> ps).
Proof.
  revert cres. induction ps as [|p ps IH]; intros cres; simpl.
  - by rewrite app_nil_r.
  - rewrite IH. simpl. by rewrite <- app_assoc.
Qed.

Lemma grantAll_Devices m ids cres :
  Devices (grantAll m ids cres)
  = Devices cres ++ (nodeSpec <$> (ids ≫= λ id, nodePaths (lookupDev m id))).
Proof.
  unfold grantAll. revert cres.
  induction ids as [|id ids IH]; intros cres; simpl.
  - by rewrite app_nil_r.
  - rewrite IH, nodePaths_alt, appendNodes_Devices, fmap_app.
    by rewrite <- app_assoc.
Qed.

Lemma grantAll_Mounts m ids cres :
  Mounts (grantAll m ids cres)
  = Mounts cres ++ (nodeMount <$> (ids ≫= λ id, nodePaths (lookupDev m id))).
Proof.
  unfold grantAll. revert cres.
  induction ids as [|id ids IH]; intros cres; simpl.
  - by rewrite app_nil_r.
  - rewrite IH, nodePaths_alt, appendNodes_Mounts, fmap_app.
    by rewrite <- app_assoc.
Qed.

Lemma grantAll_grantsDevice m ids dev id :
  id ∈ ids → m !! id = Some dev →
  grantsDevice (grantAll m ids emptyContainerResponse) dev.
Proof.
  intros Hin Hdev p Hp.
  rewrite grantAll_Devices, grantAll_Mounts. simpl.
  assert (p ∈ ids ≫= λ id, nodePaths (lookupDev m id)) as Hpin.
  { apply list_elem_of_bind. exists id. split; [|done].
    unfold lookupDev. by rewrite Hdev. }
  split; apply list_elem_of_fmap; by exists p.
Qed.

(** ** Allocate: the loop over the container requests *)

Lemma allocateLoop_Err π m creq creqs response e :
  allocateLoop π m creq creqs response = Err e →
  ∃ id, e = NonExistingDevice id ∧ m !! id = None.
Proof.
  revert creq response.
  induction creqs as [|ids creqs IH]; intros creq response; simpl; [done|].
  destruct (resolveLoop _ _ _ _ _ _) as [cres|e'] eqn:E.
  - apply IH.
  - intros [= <-]. apply resolveLoop_Err in E as (id & ? & _ & ?). by exists id.
Qed.

Lemma allocateLoop_Ok π m creq creqs response resp :
  allocateLoop π m creq creqs response = Ok resp →
  resp = response ++
         imap (λ i ids, grantAll m (serialExpand π m (creq + i) ids)
                                 emptyContainerResponse) creqs
  ∧ ∀ i ids, creqs !! i = Some ids →
             Forall (λ id, is_Some (m !! id)) (serialExpand π m (creq + i) ids).
Proof.
  revert creq response.
  induction creqs as [|ids creqs IH]; intros creq response; simpl.
  - intros [= <-]. rewrite app_nil_r. split; [done|]. by intros i ids.
  - destruct (resolveLoop _ _ _ _ _ _) as [cres|e'] eqn:E; [|done].
    apply resolveLoop_Ok in E as [Hall ->].
    intros [-> Hrest]%IH. split.
    + rewrite <- app_assoc. simpl. rewrite Nat.add_0_r. do 2 f_equal.
      apply imap_ext. intros i x _. simpl. do 3 f_equal. lia.
    + intros [|i] ids'; simpl.
      * intros [= <-]. by rewrite Nat.add_0_r.
      * intros Hi. specialize (Hrest i ids' Hi).
        by replace (creq + S i) with (S creq + i) by lia.
Qed.

Lemma allocateLoop_known π m creq creqs response :
  keyedById m → knownIds m creqs →
  allocateLoop π m creq creqs response =
  Ok (response ++
      imap (λ i ids, grantAll m (serialExpand π m (creq + i) ids)
                              emptyContainerResponse) creqs).
Proof.
  intros Hkey Hall. revert creq response.
  induction Hall as [|ids creqs Hids _ IH]; intros creq response; simpl.
  - by rewrite app_nil_r.
  - rewrite resolveLoop_known by by apply serialExpand_known.
    rewrite IH, <- app_assoc. simpl. rewrite Nat.add_0_r. do 3 f_equal.
    apply imap_ext. intros i x _. simpl. do 3 f_equal. lia.
Qed.

Lemma allocateLoop_unknown π m creq creqs response ids id :
  ids ∈ creqs → id ∈ ids → m !! id = None →
  ∃ id', m !! id' = None
         ∧ allocateLoop π m creq creqs response = Err (NonExistingDevice id').
Proof.
  intros Hids Hid Hnone. revert creq response.
  induction creqs as [|ids0 creqs IH]; intros creq response; simpl.
  - by apply elem_of_nil in Hids.
  - destruct (resolveLoop _ _ _ _ _ _) as [cres|e'] eqn:E.
    + apply elem_of_cons in Hids as [->|Hids]; [|by apply IH].
      apply resolveLoop_Ok in E as [Hall _].
      assert (id ∈ serialExpand π m creq ids0) as Hin
        by by eapply prefix_elem_of; [apply serialExpand_prefix|].
      eapply Forall_forall in Hall; [|done]. rewrite Hnone in Hall.
      by destruct Hall.
    + apply resolveLoop_Err in E as (id' & -> & _ & ?). by exists id'.
Qed.

(** A request that lists placeholder devices only is not expanded. *)
Lemma serialFold_placeholder m id2 devs arr :
  EqualFold (SN (lookupDev m (nth id2 arr ""))) AWS_SN = true →
  foldl (serialStep m id2) arr devs = arr.
Proof.
  intros Hfold. induction devs as [|d devs IH]; simpl; [done|].
  assert (serialStep m id2 arr d = arr) as ->; [|done].
  unfold serialStep.
  destruct (String.eqb_spec (SN d) (SN (lookupDev m (nth id2 arr "")))) as [->|?];
    [|done].
  by rewrite Hfold.
Qed.

Lemma serialExpand_placeholder π m creq ids :
  Forall (λ x, EqualFold (SN (lookupDev m x)) AWS_SN = true) ids →
  serialExpand π m creq ids = ids.
Proof.
  intros Hall. unfold serialExpand.
  assert (∀ idxs, Forall (λ i, i < length ids) idxs →
            foldl (fun arr id2 => serialPass π m creq id2 arr) ids idxs = ids)
    as Hloop.
  { induction 1 as [|i idxs Hi _ IH]; simpl; [done|].
    unfold serialPass at 2. rewrite serialFold_placeholder; [done|].
    destruct (lookup_lt_is_Some_2 ids i Hi) as [x Hx].
    apply nth_lookup_Some with (d := "") in Hx as Hnth. rewrite Hnth.
    eapply Forall_forall in Hall; [done|]. by eapply list_elem_of_lookup_2. }
  apply Hloop. apply Forall_forall. intros i Hi. apply elem_of_seq in Hi. lia.
Qed.

Lemma Allocate_known π m req :
  keyedById m → knownIds m req →
  Allocate π m req =
  Ok (imap (λ i ids, grantAll m (serialExpand π m i ids) emptyContainerResponse)
           req).
Proof. intros. unfold Allocate. by rewrite allocateLoop_known. Qed.

(** ** Serial co-location at allocation *)

(** C1 (amended). For a device map keyed by device id, a batch whose ids are
    all known, and two devices X and Y of the map with equal serial numbers:
    when the serial number is non-empty and is not the placeholder "F1-Node"
    in any letter case, Allocate returns a response, and the response of a
    container request that lists X's id grants Y's device nodes, and the
    other way round; when the serial number is the placeholder in some
    letter case, the expansion adds neither device to a request that does not
    list it, and a request for X alone (for Y alone) is answered with X's
    (Y's) device nodes only. *)
Theorem colocation_symmetry π (m : DeviceMap) x y X Y req creq ids :
  keyedById m → knownIds m req →
  m !! x = Some X → m !! y = Some Y → SN X = SN Y →
  req !! creq = Some ids →
  (SN X ≠ "" → ¬ caseVariant (SN X) AWS_SN →
     ∃ resp cres,
       Allocate π m req = Ok resp ∧ resp !! creq = Some cres
       ∧ (x ∈ ids → grantsDevice cres Y)
       ∧ (y ∈ ids → grantsDevice cres X))
  ∧ (caseVariant (SN X) AWS_SN →
       (y ∈ serialExpand π m creq ids → y ∈ ids)
       ∧ (x ∈ serialExpand π m creq ids → x ∈ ids)
       ∧ Allocate π m [[x]] = Ok [grantNodes X emptyContainerResponse]
       ∧ Allocate π m [[y]] = Ok [grantNodes Y emptyContainerResponse]).
Proof.
  intros Hkey Hknown HX HY Hsn Hreq. split.
  - intros _ Hreal%EqualFold_false_iff.
    exists (imap (λ i ids, grantAll m (serialExpand π m i ids)
                                    emptyContainerResponse) req),
           (grantAll m (serialExpand π m creq ids) emptyContainerResponse).
    split; [by apply Allocate_known|].
    split; [by rewrite list_lookup_imap, Hreq|].
    split; intros Hin.
    + apply grantAll_grantsDevice with (id := y); [|done].
      apply serialExpand_elem_of; [done|]. right. exists Y, x.
      unfold lookupDev. rewrite HX. simpl. by rewrite <- Hsn.
    + apply grantAll_grantsDevice with (id := x); [|done].
      apply serialExpand_elem_of; [done|]. right. exists X, y.
      unfold lookupDev. rewrite HY. simpl. done.
  - intros Hph%EqualFold_caseVariant.
    assert (∀ z Z, m !! z = Some Z → SN Z = SN X →
              (z ∈ serialExpand π m creq ids → z ∈ ids)
              ∧ Allocate π m [[z]] = Ok [grantNodes Z emptyContainerResponse])
      as Hone.
    { intros z Z HZ HsnZ. split.
      - intros Hin. apply serialExpand_elem_of in Hin; [|done].
        destruct Hin as [?|(device & _ & Hd & _ & Hne & _)]; [done|].
        rewrite HZ in Hd. injection Hd as <-. congruence.
      - rewrite Allocate_known; [|done|].
        + simpl. rewrite serialExpand_placeholder.
          * unfold grantAll, lookupDev. simpl. by rewrite HZ.
          * constructor; [|done]. unfold lookupDev. rewrite HZ. simpl. congruence.
        + constructor; [|done]. constructor; [by rewrite HZ|done]. }
    destruct (Hone x X HX eq_refl) as [? ?].
    destruct (Hone y Y HY (eq_sym Hsn)) as [? ?]. done.
Qed.

Lemma colocation_symmetry_witness :
  ∃ resp cres,
    Allocate listedOrder sharedSerialCard [["0000:01:00.0"]] = Ok resp
    ∧ resp !! 0 = Some cres
    ∧ grantsDevice cres cardFn1.
Proof.
  destruct (colocation_symmetry listedOrder sharedSerialCard
              "0000:01:00.0" "0000:01:00.1" cardFn0 cardFn1
              [["0000:01:00.0"]] 0 ["0000:01:00.0"]) as [Hreal _].
  - decide_by_compute.
  - decide_by_compute.
  - reflexivity.
  - reflexivity.
  - reflexivity.
  - reflexivity.
  - destruct Hreal as (resp & cres & Hresp & Hcres & Hgrant & _).
    + discriminate.
    + intros Hcase. apply EqualFold_caseVariant in Hcase. discriminate.
    + exists resp, cres. split; [done|]. split; [done|].
      apply Hgrant. left.
Defined.

(** C1 as stated fails on a serial number that differs from "F1-Node" in
    letter case only: the two devices share the non-empty serial number
    "f1-node", which is not equal to the placeholder, and a request for the
    first is answered without the device nodes of the second. *)
Lemma colocation_symmetry_counterexample :
  keyedById lowerCasePlaceholderPair
  ∧ lowerCasePlaceholderPair !! "0000:01:00.0" = Some lowerFn0
  ∧ lowerCasePlaceholderPair !! "0000:01:00.1" = Some lowerFn1
  ∧ SN lowerFn0 = SN lowerFn1 ∧ SN lowerFn0 ≠ "" ∧ SN lowerFn0 ≠ AWS_SN
  ∧ ∀ π, ∃ cres,
      Allocate π lowerCasePlaceholderPair [["0000:01:00.0"]] = Ok [cres]
      ∧ ¬ grantsDevice cres lowerFn1.
Proof.
  assert (keyedById lowerCasePlaceholderPair) as Hkey
    by (decide_by_compute).
  repeat split; try done.
  intros π. exists (grantNodes lowerFn0 emptyContainerResponse). split.
  - rewrite Allocate_known; [|done|].
    + simpl. rewrite serialExpand_placeholder; [done|].
      constructor; [reflexivity|done].
    + decide_by_compute.
  - intros Hgrant.
    destruct (Hgrant "/dev/dri/renderD-0000:01:00.1") as [Hspec _].
    + vm_compute. left.
    + vm_compute in Hspec.
      apply elem_of_cons in Hspec as [?|Hnil]; [done|].
      by apply elem_of_nil in Hnil.
Qed.

(** ** Allocation atomicity *)

(** C2. If a container request of the batch holds an id that is not a key of
    the server's device map, Allocate fails with the "non-existing device"
    error for an id the map does not hold, and returns no response. *)
Theorem allocation_atomicity π (m : DeviceMap) req ids id :
  ids ∈ req → id ∈ ids → m !! id = None →
  (∃ id', m !! id' = None ∧ Allocate π m req = Err (NonExistingDevice id'))
  ∧ ∀ resp, Allocate π m req ≠ Ok resp.
Proof.
  intros Hids Hid Hnone.
  destruct (allocateLoop_unknown π m 0 req [] ids id Hids Hid Hnone)
    as (id' & Hnone' & Herr).
  split; [by exists id'|]. intros resp. unfold Allocate. by rewrite Herr.
Qed.

Lemma allocation_atomicity_witness :
  (∃ id', sharedSerialCard !! id' = None
          ∧ Allocate listedOrder sharedSerialCard
              [["0000:01:00.0"]; ["0000:01:00.1"; "0000:09:00.0"]]
            = Err (NonExistingDevice id'))
  ∧ ∀ resp, Allocate listedOrder sharedSerialCard
              [["0000:01:00.0"]; ["0000:01:00.1"; "0000:09:00.0"]] ≠ Ok resp.
Proof.
  apply (allocation_atomicity listedOrder sharedSerialCard
           [["0000:01:00.0"]; ["0000:01:00.1"; "0000:09:00.0"]]
           ["0000:01:00.1"; "0000:09:00.0"] "0000:09:00.0").
  - decide_by_compute.
  - decide_by_compute.
  - reflexivity.
Defined.

(** ** Devices without a serial number *)

(** C6 fails on the code. The two devices of [emptySerialPair] report an
    empty serial number; whatever order the map is ranged over, a request for
    the first alone is answered with the device nodes of both: the test on
    line 338 takes two empty serial numbers as a shared one. *)
Theorem empty_serial_pulls_sibling π :
  keyedById emptySerialPair
  ∧ SN blankFn0 = "" ∧ SN blankFn1 = ""
  ∧ serialExpand π emptySerialPair 0 ["0000:02:00.0"]
    = ["0000:02:00.0"; "0000:03:00.0"]
  ∧ Allocate π emptySerialPair [["0000:02:00.0"]]
    = Ok [grantNodes blankFn1 (grantNodes blankFn0 emptyContainerResponse)].
Proof.
  assert (keyedById emptySerialPair) as Hkey by decide_by_compute.
  assert (serialExpand π emptySerialPair 0 ["0000:02:00.0"]
          = ["0000:02:00.0"; "0000:03:00.0"]) as Hexp.
  { unfold serialExpand, serialPass, range. simpl.
    pose proof (order_perm π _ (AtAllocateSerial 0 0)
                  (map_to_list emptySerialPair)) as Hperm.
    revert Hperm.
    generalize (order_of π _ (AtAllocateSerial 0 0) (map_to_list emptySerialPair)).
    intros l Hperm.
    evaluate_entries emptySerialPair Hperm. symmetry in Hperm.
    apply Permutation_length_2_inv in Hperm as [-> | ->]; vm_compute; reflexivity. }
  repeat split; try done.
  rewrite Allocate_known; [|done|decide_by_compute].
  simpl. rewrite Hexp. vm_compute. reflexivity.
Qed.

(** ** The shape of the device-node grants *)

(** C7. When Allocate returns a response, it holds one container response per
    container request, in request order; every id of the expanded request
    resolves to a device of the map, and the container response lists, device
    after device, the node paths of [nodePaths]: the management node when its
    path is non-empty, the user node, the DMA node when its path is
    non-empty. Every device-node grant has permissions "rwm" and equal host
    and container paths, and the mounts are, position by position, the
    read-write mounts of the same paths. *)
Theorem grant_shape π (m : DeviceMap) req resp :
  Allocate π m req = Ok resp →
  length resp = length req
  ∧ ∀ creq ids cres,
      req !! creq = Some ids → resp !! creq = Some cres →
      ∃ devs,
        Forall2 (λ id dev, m !! id = Some dev) (serialExpand π m creq ids) devs
        ∧ Devices cres = nodeSpec <$> (devs ≫= nodePaths)
        ∧ Mounts cres = nodeMount <$> (devs ≫= nodePaths)
        ∧ Forall (λ d, spec_Permissions d = "rwm"
                       ∧ spec_HostPath d = spec_ContainerPath d) (Devices cres)
        ∧ Mounts cres
          = (λ d, mkMount (spec_HostPath d) (spec_HostPath d) false)
            <$> Devices cres.
Proof.
  unfold Allocate. intros [-> Hall]%allocateLoop_Ok. simpl. split.
  - by rewrite length_imap.
  - intros creq ids cres Hreq. rewrite list_lookup_imap, Hreq. simpl.
    intros [= <-]. specialize (Hall creq ids Hreq). simpl in Hall.
    exists (lookupDev m <$> serialExpand π m creq ids).
    assert (∀ l : list string,
              (lookupDev m <$> l) ≫= nodePaths
              = l ≫= λ id, nodePaths (lookupDev m id)) as Hbind.
    { intros l. by rewrite list_fmap_bind. }
    rewrite grantAll_Devices, grantAll_Mounts, <- !Hbind.
    change (Devices emptyContainerResponse) with (@nil DeviceSpec).
    change (Mounts emptyContainerResponse) with (@nil Mount).
    rewrite !app_nil_l.
    split; [|split; [done|split; [done|split]]].
    + apply Forall2_fmap_r, Forall_Forall2_diag.
      eapply Forall_impl; [done|]. intros id [dev Hdev].
      unfold lookupDev, compose. by rewrite Hdev.
    + apply Forall_fmap, Forall_true. by intros p.
    + by rewrite <- list_fmap_compose.
Qed.

Lemma grant_shape_witness :
  length [grantNodes cardFn1 (grantNodes cardFn0 emptyContainerResponse)]
  = length [["0000:01:00.0"]]
  ∧ ∀ creq ids cres,
      [["0000:01:00.0"]] !! creq = Some ids →
      [grantNodes cardFn1 (grantNodes cardFn0 emptyContainerResponse)] !! creq
      = Some cres →
      ∃ devs,
        Forall2 (λ id dev, sharedSerialCard !! id = Some dev)
                (serialExpand listedOrder sharedSerialCard creq ids) devs
        ∧ Devices cres = nodeSpec <$> (devs ≫= nodePaths)
        ∧ Mounts cres = nodeMount <$> (devs ≫= nodePaths)
        ∧ Forall (λ d, spec_Permissions d = "rwm"
                       ∧ spec_HostPath d = spec_ContainerPath d) (Devices cres)
        ∧ Mounts cres
          = (λ d, mkMount (spec_HostPath d) (spec_HostPath d) false)
            <$> Devices cres.
Proof.
  apply (grant_shape listedOrder sharedSerialCard [["0000:01:00.0"]]).
  vm_compute. reflexivity.
Defined.

(** ** The second existence check of Allocate *)

Lemma serialFold_field_steady m creq id2 j devs arr :
  serialFold_field (steady m) creq id2 j devs arr
  = foldl (serialStep m id2) arr devs.
Proof.
  revert j arr. induction devs as [|device devs IH]; intros j arr; [done|].
  cbn [serialFold_field foldl]. by rewrite IH.
Qed.

Lemma serialExpand_field_steady π m creq ids :
  serialExpand_field π (steady m) creq ids = serialExpand π m creq ids.
Proof.
  unfold serialExpand_field, serialExpand.
  generalize (seq 0 (length ids)) as l. intros l. revert ids.
  induction l as [|id2 l IH]; intros arr; [done|]. cbn [foldl].
  rewrite <- IH. unfold serialPass_field, serialPass.
  by rewrite serialFold_field_steady.
Qed.

Lemma allocateLoop_field_steady π m creq creqs response :
  allocateLoop_field π (steady m) creq creqs response
  = allocateLoop π m creq creqs response.
Proof.
  revert creq response.
  induction creqs as [|ids creqs IH]; intros creq response; [done|].
  cbn [allocateLoop_field allocateLoop]. rewrite serialExpand_field_steady.
  destruct (resolveLoop _ _ _ _ _ _); [apply IH|done].
Qed.

(** The error of line 352 is returned for an id that the read of line 347
    found and the read of [deviceExists] did not. *)
Lemma resolveLoop_UnknownDevice π field creq idx ids cres id' :
  resolveLoop π field creq idx ids cres = Err (UnknownDevice id') →
  ∃ i, ids !! i = Some id'
       ∧ is_Some (field (ReadLookup creq (idx + i)) !! id')
       ∧ field (ReadDeviceExists creq (idx + i)) !! id' = None.
Proof.
  revert idx cres.
  induction ids as [|id ids IH]; intros idx cres; cbn [resolveLoop]; [done|].
  destruct (field (ReadLookup creq idx) !! id) as [dev|] eqn:Hdev; [|done].
  destruct (deviceExists π (AtDeviceExists creq idx)
              (field (ReadDeviceExists creq idx)) id) eqn:Hex; simpl.
  - intros (i & Hi & Hfound & Hgone)%IH. exists (S i).
    split; [done|]. by replace (idx + S i) with (S idx + i) by lia.
  - intros [= <-]. exists 0. rewrite Nat.add_0_r. split; [done|].
    split; [by eexists|].
    destruct (field (ReadDeviceExists creq idx) !! id) as [dev'|] eqn:Hdev';
      [|done].
    by rewrite (deviceExists_lookup _ _ _ _ _ Hdev') in Hex.
Qed.

Lemma allocateLoop_field_UnknownDevice π field creq creqs response id' :
  allocateLoop_field π field creq creqs response = Err (UnknownDevice id') →
  ∃ c ids idx,
    creqs !! c = Some ids
    ∧ serialExpand_field π field (creq + c) ids !! idx = Some id'
    ∧ is_Some (field (ReadLookup (creq + c) idx) !! id')
    ∧ field (ReadDeviceExists (creq + c) idx) !! id' = None.
Proof.
  revert creq response.
  induction creqs as [|ids creqs IH]; intros creq response;
    cbn [allocateLoop_field]; [done|].
  destruct (resolveLoop _ _ _ _ _ _) as [cres|e] eqn:E.
  - intros (c & ids' & idx & Hc & Hrest)%IH. exists (S c), ids', idx.
    split; [done|]. by replace (creq + S c) with (S creq + c) by lia.
  - intros [= ->]. apply resolveLoop_UnknownDevice in E as (i & Hi & Hrest).
    exists 0, ids, i. by rewrite Nat.add_0_r.
Qed.

(** C9. [deviceExists] is the membership test of the device map it reads,
    whatever order its loop visits the keys in, so it holds of every id that
    a lookup in that map finds. In a call of Allocate during which the field
    [m.devices] holds one map, and more generally whenever [deviceExists]
    reads the map the lookup of line 347 read, the "unknown device" error of
    line 352 is never returned. Beside [ListAndWatch] the error is returned,
    and only for an id of the expanded slice that the lookup found and that
    the map [deviceExists] read does not hold. *)
Theorem deviceExists_redundant π s (m : DeviceMap) id :
  deviceExists π s m id = bool_decide (is_Some (m !! id))
  ∧ (∀ dev, m !! id = Some dev → deviceExists π s m id = true)
  ∧ (∀ req, Allocate_field π (steady m) req = Allocate π m req)
  ∧ (∀ req id', Allocate π m req ≠ Err (UnknownDevice id'))
  ∧ (∀ field req id',
       (∀ creq idx,
          field (ReadDeviceExists creq idx) = field (ReadLookup creq idx)) →
       Allocate_field π field req ≠ Err (UnknownDevice id'))
  ∧ (∀ field req id',
       Allocate_field π field req = Err (UnknownDevice id') →
       ∃ creq ids idx,
         req !! creq = Some ids
         ∧ serialExpand_field π field creq ids !! idx = Some id'
         ∧ is_Some (field (ReadLookup creq idx) !! id')
         ∧ field (ReadDeviceExists creq idx) !! id' = None).
Proof.
  split; [|split; [|split; [|split; [|split]]]].
  - destruct (deviceExists π s m id) eqn:E.
    + apply deviceExists_true_iff in E. by rewrite bool_decide_eq_true_2.
    + rewrite bool_decide_eq_false_2; [done|].
      intros H. apply (deviceExists_true_iff π s) in H. congruence.
  - apply deviceExists_lookup.
  - intros req. apply allocateLoop_field_steady.
  - intros req id' Herr. apply allocateLoop_Err in Herr as (? & ? & _). done.
  - intros field req id' Hsame Herr.
    apply allocateLoop_field_UnknownDevice in Herr
      as (c & ids & idx & _ & _ & [dev Hdev] & Hgone).
    rewrite Hsame in Hgone. simpl in *. congruence.
  - intros field req id' Herr.
    apply allocateLoop_field_UnknownDevice in Herr
      as (c & ids & idx & ? & ? & ? & ?).
    by exists c, ids, idx.
Qed.

(** One function of a card goes away while Allocate resolves it:
    [ListAndWatch] receives the new snapshot after the lookup of line 347
    and before the loop of [deviceExists]. *)
Lemma deviceExists_redundant_counterexample :
  fieldAcross updatedServer (ReadDeviceExists 0 0) (ReadLookup 0 0)
    !! "0000:01:00.1" = Some cardFn1
  ∧ deviceExists listedOrder (AtDeviceExists 0 0)
      (fieldAcross updatedServer (ReadDeviceExists 0 0)
                   (ReadDeviceExists 0 0))
      "0000:01:00.1" = false
  ∧ Allocate_field listedOrder
      (fieldAcross updatedServer (ReadDeviceExists 0 0)) [["0000:01:00.1"]]
    = Err (UnknownDevice "0000:01:00.1").
Proof. repeat split; vm_compute; reflexivity. Qed.

(** ** Placeholder detection *)

(** C10. [IsContain items item] holds exactly when [item] occurs in [items]
    and is not "F1-Node" in any letter case ([EqualFold] is equality after
    lower-casing); it fails for every case variant of the placeholder, so a
    device with such a serial number is advertised whatever has been
    advertised before, and the allocation loop never appends it. *)
Theorem IsContain_case_insensitive (items : list string) (item : string) :
  (IsContain items item = true ↔ item ∈ items ∧ ¬ caseVariant item AWS_SN)
  ∧ (∀ s, EqualFold s AWS_SN = true ↔ caseVariant s AWS_SN)
  ∧ (∀ s, caseVariant s AWS_SN → IsContain items s = false)
  ∧ IsContain ["f1-node"] "f1-node" = false
  ∧ IsContain ["F1-NODE"] "F1-NODE" = false
  ∧ (∀ st device, caseVariant (SN device) AWS_SN →
       advertiseStep st device
       = (st.1 ++ [SN device],
          st.2 ++ [mkApiDevice (DBDF device) (Healthy device)]))
  ∧ (∀ m id2 arr device, caseVariant (SN device) AWS_SN →
       serialStep m id2 arr device = arr).
Proof.
  split; [|split; [|split; [|split; [|split; [|split]]]]]; try reflexivity.
  - rewrite IsContain_true_iff. by rewrite EqualFold_false_iff.
  - intros s. apply EqualFold_caseVariant.
  - intros s Hs%EqualFold_caseVariant. apply IsContain_false_iff. by right.
  - intros [SerialNums respDevices] device Hph.
    assert (IsContain SerialNums (SN device) = false) as Hc
      by (apply IsContain_false_iff; right; by apply EqualFold_caseVariant).
    unfold advertiseStep. rewrite Hc. simpl.
    destruct (String.eqb_spec (SN device) "") as [Hempty|?]; [|done].
    rewrite Hempty in Hph. apply EqualFold_caseVariant in Hph. discriminate.
  - intros m id2 arr device Hph%EqualFold_caseVariant.
    unfold serialStep. rewrite Hph. simpl. by rewrite andb_false_r.
Qed.

(** ** Advertisement *)

Lemma advertise_fold devs SerialNums respDevices :
  foldl advertiseStep (SerialNums, respDevices) devs
  = (SerialNums ++ (SN <$> keptDevices SerialNums devs),
     respDevices ++ (apiDevice <$> keptDevices SerialNums devs)).
Proof.
  revert SerialNums respDevices.
  induction devs as [|d devs IH]; intros SerialNums respDevices; simpl.
  - by rewrite !app_nil_r.
  - destruct (IsContain SerialNums (SN d) && negb (String.eqb (SN d) ""));
      [apply IH|].
    destruct (String.eqb (SN d) ""); [apply IH|].
    rewrite IH. simpl. by rewrite <- !app_assoc.
Qed.

Lemma advertised_kept π m :
  advertised π m = apiDevice <$> keptDevices [] (range π AtSendDevices m).*2.
Proof. unfold advertised. by rewrite advertise_fold. Qed.

Lemma keptDevices_sublist SerialNums devs :
  keptDevices SerialNums devs `sublist_of` devs.
Proof.
  revert SerialNums. induction devs as [|d devs IH]; intros SerialNums; simpl.
  - done.
  - repeat case_match; try (by apply sublist_cons); by apply sublist_skip.
Qed.

Lemma keptDevices_nonempty SerialNums devs d :
  d ∈ keptDevices SerialNums devs → SN d ≠ "".
Proof.
  revert SerialNums. induction devs as [|d0 devs IH]; intros SerialNums; simpl.
  - intros H. by apply elem_of_nil in H.
  - destruct (IsContain SerialNums (SN d0) && negb (String.eqb (SN d0) ""));
      [apply IH|].
    destruct (String.eqb_spec (SN d0) ""); [apply IH|].
    intros [->|?]%elem_of_cons; [done|by eapply IH].
Qed.

Lemma keptDevices_placeholder SerialNums devs d :
  d ∈ devs → EqualFold (SN d) AWS_SN = true → d ∈ keptDevices SerialNums devs.
Proof.
  intros Hin Hph. revert SerialNums.
  induction devs as [|d0 devs IH]; intros SerialNums; simpl.
  - by apply elem_of_nil in Hin.
  - apply elem_of_cons in Hin as [<-|Hin].
    + assert (IsContain SerialNums (SN d) = false) as ->
        by (apply IsContain_false_iff; by right).
      simpl. destruct (String.eqb_spec (SN d) "") as [He|?]; [|left].
      rewrite He in Hph. discriminate.
    + repeat case_match; try right; by apply IH.
Qed.

(** How many advertised devices carry a real serial number [s]: none if [s]
    was advertised before, else one if a device of [devs] carries it. *)
Lemma keptDevices_serial_count SerialNums devs s :
  s ≠ "" → EqualFold s AWS_SN = false →
  length (filter (λ d, SN d = s) (keptDevices SerialNums devs))
  = if decide (s ∈ SerialNums) then 0
    else if decide (s ∈ SN <$> devs) then 1 else 0.
Proof.
  intros Hne Hreal. revert SerialNums.
  induction devs as [|d devs IH]; intros SerialNums.
  - simpl. by repeat case_decide.
  - assert (SN d ≠ s →
            (if decide (s ∈ SN <$> d :: devs) then 1 else 0)
            = (if decide (s ∈ SN <$> devs) then 1 else 0)) as Hskip.
    { intros Hother. rewrite fmap_cons.
      destruct (decide (s ∈ SN <$> devs)) as [Hin|Hout].
      - rewrite decide_True; [done|by right].
      - rewrite decide_False; [done|].
        intros [?|?]%elem_of_cons; [congruence|done]. }
    cbn [keptDevices].
    destruct (String.eqb_spec (SN d) "") as [Hempty|Hfull].
    + rewrite andb_false_r, IH, Hskip; [done|congruence].
    + rewrite andb_true_r.
      destruct (IsContain SerialNums (SN d)) eqn:Hc.
      * apply IsContain_true_iff in Hc as [Hseen _]. rewrite IH.
        destruct (decide (s ∈ SerialNums)) as [|Hout]; [done|].
        symmetry. apply Hskip. congruence.
      * apply IsContain_false_iff in Hc. rewrite filter_cons.
        destruct (decide (SN d = s)) as [Heq|Hneq].
        -- cbn [length]. rewrite IH.
           rewrite (decide_True (P := s ∈ SerialNums ++ [SN d]))
             by (apply elem_of_app; right; rewrite Heq; left).
           destruct Hc as [Hc|Hc]; [|congruence].
           rewrite decide_False by congruence.
           rewrite decide_True; [done|]. rewrite fmap_cons, Heq. left.
        -- rewrite IH, <- (Hskip Hneq).
           destruct (decide (s ∈ SerialNums)) as [Hin|Hout].
           ++ rewrite decide_True; [done|]. apply elem_of_app. by left.
           ++ rewrite decide_False; [done|].
              intros [?|Hlast%list_elem_of_singleton]%elem_of_app; congruence.
Qed.

Lemma filter_none {A} (P : A → Prop) `{∀ x, Decision (P x)} (l : list A) :
  (∀ y, y ∈ l → ¬ P y) → filter P l = [].
Proof.
  induction l as [|a l IH]; intros Hall; [done|].
  rewrite filter_cons_False by (apply Hall; left).
  apply IH. intros y Hy. apply Hall. by right.
Qed.

Lemma filter_ext_elem {A} (P Q : A → Prop)
    `{∀ x, Decision (P x)} `{∀ x, Decision (Q x)} (l : list A) :
  (∀ y, y ∈ l → P y ↔ Q y) → filter P l = filter Q l.
Proof.
  induction l as [|a l IH]; intros Hall; [done|].
  rewrite !filter_cons.
  rewrite IH by (intros y Hy; apply Hall; by right).
  destruct (decide (P a)) as [HP|HP], (decide (Q a)) as [HQ|HQ]; try done;
    exfalso; apply (Hall a) in HP || apply (Hall a) in HQ; done || left.
Qed.

Lemma NoDup_fmap_count {A B} `{EqDecision B} (f : A → B) (l : list A) x :
  NoDup (f <$> l) → x ∈ l → length (filter (λ y, f y = f x) l) = 1.
Proof.
  induction l as [|a l IH]; simpl.
  - intros _ H. by apply elem_of_nil in H.
  - intros [Hnotin Hnd]%NoDup_cons Hin. rewrite filter_cons.
    destruct (decide (f a = f x)) as [Heq|Hneq]; simpl.
    + f_equal. rewrite filter_none; [done|]. intros y Hy Hfy.
      apply Hnotin. rewrite Heq, <- Hfy. by apply list_elem_of_fmap_2.
    + apply elem_of_cons in Hin as [->|Hin]; [done|by apply IH].
Qed.

Lemma filter_fmap_length {A B} (f : A → B) (P : B → Prop)
    `{∀ y, Decision (P y)} (l : list A) :
  length (filter P (f <$> l)) = length (filter (λ x, P (f x)) l).
Proof.
  induction l as [|a l IH]; [done|].
  rewrite fmap_cons, !filter_cons.
  destruct (decide (P (f a))); simpl; by rewrite IH.
Qed.

Lemma range_values_ids π s (m : DeviceMap) :
  keyedById m → DBDF <$> (range π s m).*2 = (range π s m).*1.
Proof.
  intros Hkey. rewrite <- list_fmap_compose.
  apply list_fmap_ext. intros i [k d] Hi. simpl.
  apply (Hkey k d). apply (elem_of_range π s). by eapply list_elem_of_lookup_2.
Qed.

Lemma range_value_lookup π s (m : DeviceMap) d :
  keyedById m → d ∈ (range π s m).*2 → m !! DBDF d = Some d.
Proof.
  intros Hkey [k Hk]%elem_of_range_values. by rewrite (Hkey k d Hk).
Qed.

Lemma kept_lookup π (m : DeviceMap) d :
  keyedById m →
  d ∈ keptDevices [] (range π AtSendDevices m).*2 →
  m !! DBDF d = Some d ∧ SN d ≠ "".
Proof.
  intros Hkey Hin. split; [|by eapply keptDevices_nonempty].
  eapply range_value_lookup; [done|].
  eapply elem_of_sublist; [done|apply keptDevices_sublist].
Qed.

Lemma kept_NoDup_ids π (m : DeviceMap) :
  keyedById m →
  NoDup (DBDF <$> keptDevices [] (range π AtSendDevices m).*2).
Proof.
  intros Hkey.
  eapply sublist_NoDup;
    [|apply fmap_sublist, (keptDevices_sublist [] (range π AtSendDevices m).*2)].
  rewrite range_values_ids by done. apply NoDup_range_keys.
Qed.

(** The advertised list of the three devices with serial numbers "ABC",
    "ABC" and "", under every iteration order. *)
Lemma advertised_dedupExample π :
  ∃ e, advertised π dedupExample = [e]
       ∧ SN (lookupDev dedupExample (ID e)) = "ABC".
Proof.
  unfold advertised, range.
  pose proof (order_perm π _ AtSendDevices (map_to_list dedupExample)) as Hperm.
  revert Hperm.
  generalize (order_of π _ AtSendDevices (map_to_list dedupExample)).
  intros l Hperm. evaluate_entries dedupExample Hperm.
  symmetry in Hperm. apply permutations_Permutation in Hperm.
  vm_compute in Hperm.
  repeat (apply elem_of_cons in Hperm as [->|Hperm];
          [eexists; split; vm_compute; reflexivity|]).
  by apply elem_of_nil in Hperm.
Qed.

(** C5 (amended). For a device map keyed by device id, and whatever order
    the map is ranged over: the advertised list holds exactly one entry for
    every serial number that is non-empty, is not "F1-Node" in any letter
    case and is carried by a device of the map; exactly one entry for every
    device whose serial number is "F1-Node" in some letter case; no entry
    for a device with an empty serial number; and nothing else. For the three
    devices with serial numbers "ABC", "ABC" and "" it holds one entry, of an
    "ABC" device. *)
Theorem advertisement_dedup π (m : DeviceMap) :
  keyedById m →
  (∀ s, s ≠ "" → ¬ caseVariant s AWS_SN →
        (∃ k d, m !! k = Some d ∧ SN d = s) →
        length (entriesForSerial m s (advertised π m)) = 1)
  ∧ (∀ k d, m !! k = Some d → caseVariant (SN d) AWS_SN →
            length (entriesForDevice k (advertised π m)) = 1)
  ∧ (∀ k d, m !! k = Some d → SN d = "" →
            entriesForDevice k (advertised π m) = [])
  ∧ (∀ e, e ∈ advertised π m →
          ∃ d, m !! ID e = Some d ∧ Health e = Healthy d ∧ SN d ≠ "")
  ∧ (∀ π', ∃ e, advertised π' dedupExample = [e]
                ∧ SN (lookupDev dedupExample (ID e)) = "ABC").
Proof.
  intros Hkey. rewrite advertised_kept.
  set (devs := (range π AtSendDevices m).*2).
  split; [|split; [|split; [|split]]].
  - intros s Hne Hreal%EqualFold_false_iff (k & d & Hd & Hs).
    unfold entriesForSerial. rewrite filter_fmap_length.
    rewrite (filter_ext_elem _ (λ d, SN d = s)).
    + rewrite keptDevices_serial_count by done.
      rewrite decide_False by (intros H; by apply elem_of_nil in H).
      rewrite decide_True; [done|].
      apply list_elem_of_fmap. exists d. split; [done|].
      apply elem_of_range_values. eauto.
    + intros d' Hd'. apply (kept_lookup π m d' Hkey) in Hd' as [Hd' _].
      simpl. unfold lookupDev. by rewrite Hd'.
  - intros k d Hd Hph%EqualFold_caseVariant.
    unfold entriesForDevice. rewrite filter_fmap_length. simpl.
    rewrite <- (Hkey k d Hd).
    apply (NoDup_fmap_count DBDF); [by apply kept_NoDup_ids|].
    apply keptDevices_placeholder; [|done].
    apply elem_of_range_values. eauto.
  - intros k d Hd Hempty. unfold entriesForDevice.
    apply filter_none. intros e [d' [-> Hd']]%list_elem_of_fmap Hid.
    apply (kept_lookup π m d' Hkey) in Hd' as [Hd' Hfull].
    simpl in Hid. rewrite Hid, Hd in Hd'. congruence.
  - intros e [d' [-> Hd']]%list_elem_of_fmap.
    apply (kept_lookup π m d' Hkey) in Hd' as [Hd' Hfull].
    exists d'. by simpl.
  - apply advertised_dedupExample.
Qed.

Lemma advertisement_dedup_witness :
  length (entriesForSerial sharedSerialCard "X1"
            (advertised listedOrder sharedSerialCard)) = 1.
Proof.
  destruct (advertisement_dedup listedOrder sharedSerialCard) as [Hreal _].
  - decide_by_compute.
  - apply Hreal.
    + discriminate.
    + intros Hcase. apply EqualFold_caseVariant in Hcase. discriminate.
    + exists "0000:01:00.0", cardFn0. split; reflexivity.
Defined.

(** C5 as stated fails on a serial number that differs from "F1-Node" in
    letter case only: "f1-node" is non-empty and is not the placeholder, two
    devices carry it, and both are advertised under every iteration order. *)
Lemma advertisement_dedup_counterexample :
  keyedById lowerCasePlaceholderPair
  ∧ SN lowerFn0 = "f1-node" ∧ SN lowerFn1 = "f1-node"
  ∧ "f1-node" ≠ "" ∧ "f1-node" ≠ AWS_SN
  ∧ ∀ π, length (entriesForSerial lowerCasePlaceholderPair "f1-node"
                   (advertised π lowerCasePlaceholderPair)) = 2.
Proof.
  repeat split; try done; [decide_by_compute|].
  intros π. unfold advertised, range.
  pose proof (order_perm π _ AtSendDevices (map_to_list lowerCasePlaceholderPair))
    as Hperm.
  revert Hperm.
  generalize (order_of π _ AtSendDevices (map_to_list lowerCasePlaceholderPair)).
  intros l Hperm. evaluate_entries lowerCasePlaceholderPair Hperm.
  symmetry in Hperm.
  apply Permutation_length_2_inv in Hperm as [-> | ->]; vm_compute; reflexivity.
Qed.

(** ** Stop *)

Lemma lifecycle_New env devType devices :
  lifecycle (NewFPGADevicePluginServer env devType devices).
Proof. intros [? [=]]. Qed.

Lemma lifecycle_Start env m :
  chan_closed (stop m) = false → chan_closed (update m) = false →
  lifecycle (Start env m).1.1.
Proof.
  intros Hs Hu. unfold Start, cleanup.
  destruct (os_Remove env (socket m)) as [[|msg]|]; simpl;
    try (by intros _);
    destruct (net_Listen env (socket m)); simpl; by intros _.
Qed.

Lemma Stop_stopped env m :
  server m = None → Stop env m = Done (m, [], None).
Proof. intros H. unfold Stop. by rewrite H. Qed.

Lemma Stop_serving env m sock :
  server m = Some sock →
  chan_closed (stop m) = false → chan_closed (update m) = false →
  Stop env m
  = Done (mkServer (devType m) (devices m) (socket m)
                   (mkChan true (chan_buf (stop m)) (chan_cap (stop m)))
                   (mkChan true (chan_buf (update m)) (chan_cap (update m)))
                   None,
          [EvGrpcStop; EvClose "stop"; EvClose "update"; EvRemove (socket m)],
          match os_Remove env (socket m) with
          | Some (ErrOther msg) => Some (ErrOther msg)
          | _ => None
          end).
Proof.
  intros Hsrv Hs Hu. unfold Stop, closeChan, cleanup.
  rewrite Hsrv, Hs, Hu. simpl.
  by destruct (os_Remove env (socket m)) as [[|msg]|].
Qed.

(** [Stop] returns on every server in a lifecycle state, and leaves it
    stopped. *)
Lemma Stop_returns env m :
  lifecycle m →
  ∃ m' evs err, Stop env m = Done (m', evs, err) ∧ server m' = None.
Proof.
  intros Hlife. destruct (server m) as [sock|] eqn:Hsrv.
  - destruct Hlife as [Hs Hu]; [by rewrite Hsrv|].
    rewrite (Stop_serving env m sock Hsrv Hs Hu). by eexists _, _, _.
  - rewrite (Stop_stopped env m Hsrv). by eexists _, _, _.
Qed.

(** C8 (amended). On a server in a lifecycle state, [Stop] returns; a second
    [Stop], under any environment, returns [nil] and does nothing. On a
    server whose gRPC server is [nil] the first call too returns [nil] and
    does nothing. Otherwise the first call stops the gRPC server, closes both
    channels and makes the one attempt to remove the socket file; it returns
    [nil] when the file was removed or did not exist, and the error of
    [os.Remove] in every other case. *)
Theorem Stop_idempotent env env' (m : FPGADevicePluginServer) :
  lifecycle m →
  ∃ m1 evs1 err1,
    Stop env m = Done (m1, evs1, err1)
    ∧ Stop env' m1 = Done (m1, [], None)
    ∧ (server m = None → m1 = m ∧ evs1 = [] ∧ err1 = None)
    ∧ (is_Some (server m) →
         evs1 = [EvGrpcStop; EvClose "stop"; EvClose "update";
                 EvRemove (socket m)]
         ∧ socket m1 = socket m
         ∧ err1 = match os_Remove env (socket m) with
                  | Some (ErrOther msg) => Some (ErrOther msg)
                  | _ => None
                  end).
Proof.
  intros Hlife. destruct (server m) as [sock|] eqn:Hsrv.
  - destruct Hlife as [Hs Hu]; [by rewrite Hsrv|].
    rewrite (Stop_serving env m sock Hsrv Hs Hu).
    eexists _, _, _. split; [done|]. split; [by apply Stop_stopped|].
    split; [done|]. by intros _.
  - rewrite (Stop_stopped env m Hsrv).
    eexists _, _, _. split; [done|]. split; [by apply Stop_stopped|].
    split; [done|]. by intros [? [=]].
Qed.

Lemma Stop_idempotent_witness :
  ∃ m1 evs1 err1,
    Stop quietEnv servingServer = Done (m1, evs1, err1)
    ∧ Stop deniedEnv m1 = Done (m1, [], None)
    ∧ (server servingServer = None →
       m1 = servingServer ∧ evs1 = [] ∧ err1 = None)
    ∧ (is_Some (server servingServer) →
         evs1 = [EvGrpcStop; EvClose "stop"; EvClose "update";
                 EvRemove (socket servingServer)]
         ∧ socket m1 = socket servingServer
         ∧ err1 = match os_Remove quietEnv (socket servingServer) with
                  | Some (ErrOther msg) => Some (ErrOther msg)
                  | _ => None
                  end).
Proof.
  apply (Stop_idempotent quietEnv deniedEnv servingServer).
  decide_by_compute.
Defined.

(** C8 as stated fails when the socket file cannot be removed: the server
    that [Start] has brought up is in a lifecycle state, and its first [Stop]
    returns the error of [os.Remove]. *)
Lemma Stop_idempotent_counterexample :
  lifecycle servingServer
  ∧ is_Some (server servingServer)
  ∧ ∃ m1 evs1,
      Stop deniedEnv servingServer
      = Done (m1, evs1, Some (ErrOther "permission denied")).
Proof.
  split; [decide_by_compute|]. split; [by eexists|].
  eexists _, _. vm_compute. reflexivity.
Qed.

(** ** The inventory diff *)

Lemma range_list_to_map {V} π s (m : gmap string V) :
  list_to_map (range π s m) = m.
Proof.
  apply map_eq. intros k. destruct (m !! k) as [v|] eqn:Hk.
  - apply elem_of_list_to_map; [apply NoDup_range_keys|].
    by apply elem_of_range.
  - apply not_elem_of_list_to_map. rewrite elem_of_range_keys, Hk.
    by intros [? ?].
Qed.

Lemma diffFold_lookup (l : list (string * DeviceMap)) (n0 u0 r0 : Inventory) :
  NoDup l.*1 →
  ∃ n' u' r' : Inventory,
    foldl diffStep (n0, u0, r0) l = (n', u', r')
    ∧ (∀ k, n' !! k = match (list_to_map l : Inventory) !! k with
                      | Some _ => None
                      | None => n0 !! k
                      end)
    ∧ (∀ k, u' !! k = match (list_to_map l : Inventory) !! k, n0 !! k with
                      | Some o, Some nd =>
                          if decide (o = nd) then u0 !! k else Some nd
                      | _, _ => u0 !! k
                      end)
    ∧ (∀ k, r' !! k = match (list_to_map l : Inventory) !! k, n0 !! k with
                      | Some o, None => Some o
                      | _, _ => r0 !! k
                      end).
Proof.
  revert n0 u0 r0.
  induction l as [|[k0 o0] l IH]; intros n0 u0 r0 Hnd.
  - exists n0, u0, r0. split; [done|].
    repeat split; intros k; rewrite lookup_empty; by destruct (n0 !! k).
  - apply NoDup_cons in Hnd as [Hk0 Hnd].
    assert ((list_to_map l : Inventory) !! k0 = None) as Hfresh
      by by apply not_elem_of_list_to_map.
    cbn [foldl diffStep].
    destruct (n0 !! k0) as [nd|] eqn:Hn0.
    + destruct (IH (delete k0 n0)
                   (if negb (DeepEqual o0 nd) then <[k0:=nd]> u0 else u0)
                   r0 Hnd) as (n' & u' & r' & -> & Hn & Hu & Hr).
      exists n', u', r'. split; [done|].
      repeat split; intros k; rewrite ?Hn, ?Hu, ?Hr; cbn [list_to_map foldr uncurry];
        (destruct (decide (k = k0)) as [->|Hne];
         [rewrite lookup_insert_eq, Hfresh, ?lookup_delete_eq, ?Hn0
         |rewrite lookup_insert_ne by done;
          rewrite ?lookup_delete_ne by done]); try done.
      * simpl. unfold DeepEqual. destruct (decide (o0 = nd)) as [->|Hneq].
        -- by rewrite bool_decide_eq_true_2.
        -- rewrite bool_decide_eq_false_2 by done. simpl.
           by rewrite lookup_insert_eq.
      * assert ((if negb (DeepEqual o0 nd) then <[k0:=nd]> u0 else u0) !! k
                = u0 !! k) as ->; [|done].
        destruct (negb (DeepEqual o0 nd)); [|done].
        by rewrite lookup_insert_ne.
    + destruct (IH n0 u0 (<[k0:=o0]> r0) Hnd)
        as (n' & u' & r' & -> & Hn & Hu & Hr).
      exists n', u', r'. split; [done|].
      repeat split; intros k; rewrite ?Hn, ?Hu, ?Hr; cbn [list_to_map foldr uncurry];
        (destruct (decide (k = k0)) as [->|Hne];
         [rewrite lookup_insert_eq, Hfresh, ?Hn0, ?lookup_insert_eq
         |rewrite lookup_insert_ne by done;
          rewrite ?lookup_insert_ne by done]); done.
Qed.

Lemma insertFold_lookup {V} (l : list (string * V)) (a0 : gmap string V) k :
  NoDup l.*1 →
  foldl (fun (a : gmap string V) (e : string * V) => <[e.1 := e.2]> a) a0 l !! k
  = match (list_to_map l : gmap string V) !! k with
    | Some v => Some v
    | None => a0 !! k
    end.
Proof.
  revert a0. induction l as [|[k0 v0] l IH]; intros a0 Hnd.
  - simpl. by rewrite lookup_empty.
  - apply NoDup_cons in Hnd as [Hk0 Hnd]. cbn [foldl]. rewrite IH by done.
    cbn [list_to_map foldr uncurry fst snd].
    destruct (decide (k = k0)) as [->|Hne].
    + rewrite lookup_insert_eq.
      rewrite (not_elem_of_list_to_map_1 _ _ Hk0). by rewrite lookup_insert_eq.
    + rewrite !lookup_insert_ne by done. done.
Qed.

(** The three maps of the diff, key by key. *)
Lemma deviceDiff_lookup π (A B : Inventory) :
  ∃ added updated removed : Inventory,
    deviceDiff π A B = (added, updated, removed)
    ∧ (∀ k, added !! k = match A !! k with
                         | Some _ => None
                         | None => B !! k
                         end)
    ∧ (∀ k, updated !! k = match A !! k, B !! k with
                           | Some o, Some nd =>
                               if decide (o = nd) then None else Some nd
                           | _, _ => None
                           end)
    ∧ (∀ k, removed !! k = match A !! k, B !! k with
                           | Some o, None => Some o
                           | _, _ => None
                           end).
Proof.
  unfold deviceDiff.
  destruct (diffFold_lookup (range π AtCheckOld A) B ∅ ∅
              (NoDup_range_keys π AtCheckOld A))
    as (n' & u' & r' & -> & Hn & Hu & Hr).
  rewrite range_list_to_map in Hn, Hu, Hr.
  eexists _, u', r'. split; [done|]. split; [|split].
  - intros k. rewrite insertFold_lookup by apply NoDup_range_keys.
    rewrite range_list_to_map, lookup_empty, Hn.
    by destruct (A !! k), (B !! k).
  - intros k. rewrite Hu, lookup_empty. by destruct (A !! k), (B !! k).
  - intros k. rewrite Hr, lookup_empty. by destruct (A !! k), (B !! k).
Qed.

(** C3. For a previous inventory A and a current inventory B, whatever order
    the maps are ranged over, the diff of [checkDeviceUpdate] computes
    added = keys(B) \ keys(A), removed = keys(A) \ keys(B), and updated = the
    keys of both whose device maps differ, each with the device map of the
    inventory it comes from; with unchanged = the keys of both whose device
    maps are equal, the four sets are pairwise disjoint,
    added ∪ updated ∪ unchanged = keys(B),
    removed ∪ updated ∪ unchanged = keys(A), and the four together are
    keys(A) ∪ keys(B): every DeviceType of either inventory lies in exactly
    one of them. *)
Theorem diff_correct π (A B : Inventory) :
  ∃ added updated removed : Inventory,
    deviceDiff π A B = (added, updated, removed)
    ∧ dom added = dom B ∖ dom A
    ∧ dom removed = dom A ∖ dom B
    ∧ (∀ k, k ∈ dom updated ↔
            ∃ a b, A !! k = Some a ∧ B !! k = Some b ∧ a ≠ b)
    ∧ (∀ k, k ∈ unchangedTypes A B ↔ ∃ a, A !! k = Some a ∧ B !! k = Some a)
    ∧ (added ⊆ B ∧ updated ⊆ B ∧ removed ⊆ A)
    ∧ (dom added ## dom removed ∧ dom added ## dom updated
       ∧ dom added ## unchangedTypes A B ∧ dom removed ## dom updated
       ∧ dom removed ## unchangedTypes A B
       ∧ dom updated ## unchangedTypes A B)
    ∧ dom added ∪ dom updated ∪ unchangedTypes A B = dom B
    ∧ dom removed ∪ dom updated ∪ unchangedTypes A B = dom A
    ∧ dom added ∪ dom removed ∪ dom updated ∪ unchangedTypes A B
      = dom A ∪ dom B.
Proof.
  destruct (deviceDiff_lookup π A B)
    as (added & updated & removed & Hdiff & Hadd & Hupd & Hrem).
  exists added, updated, removed. split; [done|].
  assert (∀ k, k ∈ dom added ↔ A !! k = None ∧ is_Some (B !! k)) as Ha.
  { intros k. rewrite elem_of_dom, Hadd.
    destruct (A !! k), (B !! k); split; try done;
      try (by intros [? [? ?]]); by intros [? ?]. }
  assert (∀ k, k ∈ dom removed ↔ is_Some (A !! k) ∧ B !! k = None) as Hr.
  { intros k. rewrite elem_of_dom, Hrem.
    destruct (A !! k), (B !! k); split; try done;
      try (by intros [[? ?] ?]); by intros [? ?]. }
  assert (∀ k, k ∈ dom updated ↔
               ∃ a b, A !! k = Some a ∧ B !! k = Some b ∧ a ≠ b) as Hu.
  { intros k. rewrite elem_of_dom, Hupd.
    destruct (A !! k) as [a|], (B !! k) as [b|];
      try (split; [by intros [? ?]|by intros (? & ? & ? & ? & ?)]).
    destruct (decide (a = b)) as [->|Hne].
    - split; [by intros [? ?]|]. intros (? & ? & [= <-] & [= <-] & ?). done.
    - split; [|done]. intros _. by exists a, b. }
  assert (∀ k, k ∈ unchangedTypes A B ↔
               ∃ a, A !! k = Some a ∧ B !! k = Some a) as Hc.
  { intros k. unfold unchangedTypes. rewrite elem_of_dom. split.
    - intros [v [Hv HP]%map_lookup_filter_Some]. by exists v.
    - intros (a & HA & HB). exists a. by apply map_lookup_filter_Some. }
  split; [|split; [|split; [done|split; [done|split; [|split; [|split; [|split]]]]]]].
  - apply set_eq. intros k. rewrite elem_of_difference, Ha, !elem_of_dom.
    destruct (A !! k) as [a|], (B !! k) as [b|];
      rewrite ?is_Some_alt; naive_solver.
  - apply set_eq. intros k. rewrite elem_of_difference, Hr, !elem_of_dom.
    destruct (A !! k) as [a|], (B !! k) as [b|];
      rewrite ?is_Some_alt; naive_solver.
  - repeat split; apply map_subseteq_spec; intros k v;
      rewrite ?Hadd, ?Hupd, ?Hrem;
      destruct (A !! k) as [a|], (B !! k) as [b|]; try done.
    destruct (decide (a = b)); done.
  - repeat split; apply elem_of_disjoint; intros k;
      rewrite ?Ha, ?Hr, ?Hu, ?Hc;
      destruct (A !! k) as [a|], (B !! k) as [b|];
      rewrite ?is_Some_alt; naive_solver.
  - apply set_eq. intros k.
    rewrite !elem_of_union, Ha, Hu, Hc, elem_of_dom.
    destruct (A !! k) as [a|], (B !! k) as [b|];
      try destruct (decide (a = b)); rewrite ?is_Some_alt; naive_solver.
  - apply set_eq. intros k.
    rewrite !elem_of_union, Hr, Hu, Hc, elem_of_dom.
    destruct (A !! k) as [a|], (B !! k) as [b|];
      try destruct (decide (a = b)); rewrite ?is_Some_alt; naive_solver.
  - apply set_eq. intros k.
    rewrite !elem_of_union, Ha, Hr, Hu, Hc, !elem_of_dom.
    destruct (A !! k) as [a|], (B !! k) as [b|];
      try destruct (decide (a = b)); rewrite ?is_Some_alt; naive_solver.
Qed.

(** ** The registry invariant *)

Lemma foldOutcome_invariant {A B} (f : A → B → Outcome A) (P : A → Prop) l :
  (∀ a b a', b ∈ l → f a b = Done a' → P a → P a') →
  ∀ a a', foldOutcome f a l = Done a' → P a → P a'.
Proof.
  induction l as [|b l IH]; intros Hstep a a'; simpl.
  - by intros [= <-].
  - destruct (f a b) as [a1| |] eqn:E; try done. simpl.
    intros Hrun Ha. eapply IH; [|done|].
    + intros a0 b0 a0' Hb0. apply Hstep. by right.
    + eapply Hstep; [left|done|done].
Qed.

Lemma addStep_invariant env st e :
  registryInvariant st.1 → registryInvariant (addStep env st e).1.
Proof.
  destruct st as [m log], e as [aDevType aDevices]. unfold registryInvariant.
  simpl. intros Hinv. by rewrite !dom_insert_L, Hinv.
Qed.

Lemma addLoop_invariant env l st :
  registryInvariant st.1 → registryInvariant (foldl (addStep env) st l).1.
Proof.
  revert st. induction l as [|e l IH]; intros st Hinv; simpl; [done|].
  by apply IH, addStep_invariant.
Qed.

Lemma removeStep_invariant env st e st' :
  removeStep env st e = Done st' →
  registryInvariant st.1 → registryInvariant st'.1.
Proof.
  destruct st as [m log], e as [rDevType rDevices]. unfold registryInvariant.
  simpl. destruct (plugin_servers m !! rDevType) as [srv|]; [|done].
  destruct (Stop env srv) as [[[srv' evs] err]| |]; try done. simpl.
  intros [= <-] Hinv. simpl. by rewrite !dom_delete_L, Hinv.
Qed.

Lemma updateStep_invariant st e st' :
  updateStep st e = Done st' →
  registryInvariant st.1 → registryInvariant st'.1.
Proof.
  destruct st as [m log], e as [uDevType uDevices]. unfold registryInvariant.
  simpl. destruct (plugin_servers m !! uDevType) as [srv|] eqn:Hsrv; [|done].
  destruct (sendChan (update srv) uDevices) as [update'| |]; try done. simpl.
  intros [= <-] Hinv. simpl. by rewrite !dom_insert_L, Hinv.
Qed.

Lemma checkDeviceUpdate_invariant env π m n m' log :
  checkDeviceUpdate env π m n = Done (m', log) →
  registryInvariant m → registryInvariant m'.
Proof.
  unfold checkDeviceUpdate.
  destruct (deviceDiff π (plugin_devices m) n) as [[added updated] removed].
  intros Hrun Hinv.
  pose proof (addLoop_invariant env (range π AtCheckAdded added) (m, []) Hinv)
    as Hadd.
  destruct (foldOutcome (removeStep env) _ _) as [st2| |] eqn:Hrem; try done.
  simpl in Hrun.
  change m' with (m', log).1.
  eapply (foldOutcome_invariant updateStep (λ st, registryInvariant st.1));
    [intros ??? _; apply updateStep_invariant|done|].
  eapply (foldOutcome_invariant (removeStep env) (λ st, registryInvariant st.1));
    [intros ??? _; apply removeStep_invariant|done|done].
Qed.

Lemma runStep_invariant m step m' :
  runStep m step = Done m' → registryInvariant m → registryInvariant m'.
Proof.
  destruct step as [env π n|devType after]; simpl.
  - destruct (checkDeviceUpdate env π m n) as [[m1 log]| |] eqn:E; try done.
    simpl. intros [= <-]. by eapply checkDeviceUpdate_invariant.
  - destruct (plugin_servers m !! devType) as [srv|] eqn:Hsrv; [|done].
    intros [= <-]. unfold registryInvariant. simpl. intros <-.
    rewrite dom_insert_L. apply set_eq. intros k.
    rewrite elem_of_union, elem_of_singleton, elem_of_dom.
    split; [intros [->|?]; [by eexists|done]|by right].
Qed.

(** ** The stored inventory after a cycle *)

Lemma foldOutcome_project {A B C} (f : A → B → Outcome A) (g : A → C)
    (h : C → B → C) l :
  (∀ a b a', f a b = Done a' → g a' = h (g a) b) →
  ∀ a a', foldOutcome f a l = Done a' → g a' = foldl h (g a) l.
Proof.
  intros Hstep. induction l as [|b l IH]; intros a a'; simpl.
  - by intros [= <-].
  - destruct (f a b) as [a1| |] eqn:E; try done. simpl.
    intros Hrun. rewrite <- (Hstep a b a1 E). by apply IH.
Qed.

Lemma addLoop_devices env l st :
  plugin_devices (foldl (addStep env) st l).1
  = foldl (fun (a : Inventory) (e : string * DeviceMap) => <[e.1 := e.2]> a)
          (plugin_devices st.1) l.
Proof.
  revert st. induction l as [|[k v] l IH]; intros [m log]; [done|].
  cbn [foldl]. by rewrite IH.
Qed.

Lemma removeStep_devices env st e st' :
  removeStep env st e = Done st' →
  plugin_devices st'.1 = delete e.1 (plugin_devices st.1).
Proof.
  destruct st as [m log], e as [rDevType rDevices]. simpl.
  destruct (plugin_servers m !! rDevType) as [srv|]; [|done].
  destruct (Stop env srv) as [[[srv' evs] err]| |]; try done. simpl.
  by intros [= <-].
Qed.

Lemma updateStep_devices st e st' :
  updateStep st e = Done st' →
  plugin_devices st'.1 = <[e.1 := e.2]> (plugin_devices st.1).
Proof.
  destruct st as [m log], e as [uDevType uDevices]. simpl.
  destruct (plugin_servers m !! uDevType) as [srv|]; [|done].
  destruct (sendChan (update srv) uDevices) as [update'| |]; try done. simpl.
  by intros [= <-].
Qed.

Lemma deleteFold_lookup {V W} (l : list (string * W)) (d : gmap string V) k :
  foldl (fun (a : gmap string V) (e : string * W) => delete e.1 a) d l !! k
  = match (list_to_map l : gmap string W) !! k with
    | Some _ => None
    | None => d !! k
    end.
Proof.
  revert d. induction l as [|[k0 v0] l IH]; intros d.
  - simpl. by rewrite lookup_empty.
  - cbn [foldl]. rewrite IH. cbn [list_to_map foldr uncurry fst snd].
    destruct (decide (k = k0)) as [->|Hne].
    + rewrite lookup_insert_eq, lookup_delete_eq.
      by destruct (list_to_map l !! k0).
    + by rewrite lookup_insert_ne, lookup_delete_ne.
Qed.

(** After a cycle that returns, the stored inventory is the polled one. *)
Lemma checkDeviceUpdate_devices env π m n m' log :
  checkDeviceUpdate env π m n = Done (m', log) → plugin_devices m' = n.
Proof.
  unfold checkDeviceUpdate.
  destruct (deviceDiff_lookup π (plugin_devices m) n)
    as (added & updated & removed & -> & Hadd & Hupd & Hrem).
  destruct (foldOutcome (removeStep env) _ _) as [st2| |] eqn:Hloop2; try done.
  simpl. intros Hloop3.
  apply (foldOutcome_project updateStep (λ st, plugin_devices st.1)
           (fun a e => <[e.1 := e.2]> a)) in Hloop3;
    [|apply updateStep_devices].
  apply (foldOutcome_project (removeStep env) (λ st, plugin_devices st.1)
           (fun a e => delete e.1 a)) in Hloop2;
    [|apply removeStep_devices].
  simpl in Hloop3. rewrite Hloop3, Hloop2, addLoop_devices. simpl.
  apply map_eq. intros k.
  rewrite insertFold_lookup by apply NoDup_range_keys.
  rewrite deleteFold_lookup.
  rewrite insertFold_lookup by apply NoDup_range_keys.
  rewrite !range_list_to_map, Hadd, Hupd, Hrem.
  destruct (plugin_devices m !! k) as [a|], (n !! k) as [b|]; try done.
  destruct (decide (a = b)); congruence.
Qed.

Lemma runSteps_devices steps m m' :
  runSteps m steps = Done m' →
  plugin_devices m' = lastInventory (plugin_devices m) steps.
Proof.
  unfold runSteps, lastInventory. revert m.
  induction steps as [|step steps IH]; intros m; simpl.
  - by intros [= <-].
  - destruct (runStep m step) as [m1| |] eqn:E; try done. simpl.
    intros Hrun. rewrite (IH m1 Hrun). f_equal.
    destruct step as [env π n|devType after]; simpl in E.
    + destruct (checkDeviceUpdate env π m n) as [[m2 log]| |] eqn:E2; try done.
      simpl in E. injection E as <-. by eapply checkDeviceUpdate_devices.
    + destruct (plugin_servers m !! devType); [|done]. by injection E as <-.
Qed.

(** ** A cycle returns *)

Lemma addLoop_servers env l st k :
  NoDup l.*1 →
  plugin_servers (foldl (addStep env) st l).1 !! k
  = match (list_to_map l : Inventory) !! k with
    | Some v => Some (NewFPGADevicePluginServer env k v)
    | None => plugin_servers st.1 !! k
    end.
Proof.
  revert st. induction l as [|[k0 v0] l IH]; intros [m log] Hnd.
  - simpl. by rewrite lookup_empty.
  - apply NoDup_cons in Hnd as [Hk0 Hnd]. cbn [foldl]. rewrite IH by done.
    cbn [list_to_map foldr uncurry fst snd addStep plugin_servers].
    destruct (decide (k = k0)) as [->|Hne].
    + rewrite lookup_insert_eq, (not_elem_of_list_to_map_1 _ _ Hk0).
      by rewrite lookup_insert_eq.
    + by rewrite !lookup_insert_ne.
Qed.

Lemma removeLoop_returns env (l : list (string * DeviceMap)) st :
  NoDup l.*1 →
  (∀ k, k ∈ l.*1 → ∃ srv, plugin_servers st.1 !! k = Some srv ∧ lifecycle srv) →
  ∃ st', foldOutcome (removeStep env) st l = Done st'
         ∧ ∀ k, k ∉ l.*1 → plugin_servers st'.1 !! k = plugin_servers st.1 !! k.
Proof.
  revert st. induction l as [|[k0 v0] l IH]; intros [m log] Hnd Hall.
  - exists (m, log). by split.
  - apply NoDup_cons in Hnd as [Hk0 Hnd].
    destruct (Hall k0) as (srv & Hsrv & Hlife); [left|].
    destruct (Stop_returns env srv Hlife) as (srv' & evs & err & Hstop & _).
    cbn [foldOutcome removeStep]. simpl in Hsrv. rewrite Hsrv, Hstop. simpl.
    destruct (IH (mkPlugin (delete k0 (plugin_devices m))
                           (delete k0 (plugin_servers m)), log ++ evs) Hnd)
      as (st' & Hrun & Hrest).
    + intros k Hk. simpl. rewrite lookup_delete_ne by (intros ->; done).
      apply Hall. by right.
    + exists st'. split; [done|]. intros k Hk.
      apply not_elem_of_cons in Hk as [Hne Hk]. rewrite (Hrest k Hk). simpl.
      by rewrite lookup_delete_ne.
Qed.

Lemma updateLoop_returns (l : list (string * DeviceMap)) st :
  NoDup l.*1 →
  (∀ k, k ∈ l.*1 →
     ∃ srv, plugin_servers st.1 !! k = Some srv
            ∧ chan_closed (update srv) = false
            ∧ length (chan_buf (update srv)) < chan_cap (update srv)) →
  ∃ st', foldOutcome updateStep st l = Done st'.
Proof.
  revert st. induction l as [|[k0 v0] l IH]; intros [m log] Hnd Hall.
  - by exists (m, log).
  - apply NoDup_cons in Hnd as [Hk0 Hnd].
    destruct (Hall k0) as (srv & Hsrv & Hopen & Hroom); [left|].
    cbn [foldOutcome updateStep]. simpl in Hsrv. rewrite Hsrv.
    unfold sendChan. rewrite Hopen. apply Nat.ltb_lt in Hroom as ->. simpl.
    apply IH; [done|]. intros k Hk. simpl.
    rewrite lookup_insert_ne by (intros ->; done). apply Hall. by right.
Qed.

(** A reconcile cycle returns whenever the registry invariant holds and the
    registered servers are ready. *)
Lemma checkDeviceUpdate_returns env π m n :
  registryInvariant m → readyServers m →
  ∃ m' log, checkDeviceUpdate env π m n = Done (m', log).
Proof.
  intros Hinv Hready. unfold checkDeviceUpdate.
  destruct (deviceDiff_lookup π (plugin_devices m) n)
    as (added & updated & removed & -> & Hadd & Hupd & Hrem).
  set (st1 := foldl (addStep env) (m, []) (range π AtCheckAdded added)).
  assert (∀ k, is_Some (plugin_devices m !! k) →
            plugin_servers st1.1 !! k = plugin_servers m !! k
            ∧ ∃ srv, plugin_servers m !! k = Some srv
                     ∧ lifecycle srv ∧ chan_closed (update srv) = false
                     ∧ length (chan_buf (update srv)) < chan_cap (update srv))
    as Hold.
  { intros k Hk. split.
    - unfold st1. rewrite addLoop_servers by apply NoDup_range_keys.
      rewrite range_list_to_map, Hadd. by destruct Hk as [? ->].
    - apply elem_of_dom in Hk. rewrite <- Hinv in Hk.
      apply elem_of_dom in Hk as [srv Hsrv]. exists srv. split; [done|].
      apply (Hready k srv Hsrv). }
  destruct (removeLoop_returns env (range π AtCheckRemoved removed) st1)
    as (st2 & -> & Hkeep); [apply NoDup_range_keys| |].
  { intros k [v Hk]%elem_of_range_keys. rewrite Hrem in Hk.
    destruct (plugin_devices m !! k) as [a|] eqn:HA; [|by destruct (n !! k)].
    destruct (Hold k) as [-> (srv & ? & ? & _)]; [by rewrite HA|].
    by exists srv. }
  simpl.
  destruct (updateLoop_returns (range π AtCheckUpdated updated) st2)
    as ([m' log] & ->); [apply NoDup_range_keys| |by exists m', log].
  intros k [v Hk]%elem_of_range_keys. rewrite Hupd in Hk.
  destruct (plugin_devices m !! k) as [a|] eqn:HA; [|done].
  destruct (n !! k) as [b|] eqn:HB; [|done].
  rewrite Hkeep.
  - destruct (Hold k) as [-> (srv & ? & _ & ? & ?)]; [by rewrite HA|].
    by exists srv.
  - rewrite elem_of_range_keys, Hrem, HA, HB. by intros [? ?].
Qed.

(** A cycle leaves the server of an unchanged DeviceType as it was: no
    snapshot is sent to it and it is not stopped. *)
Lemma checkDeviceUpdate_unchanged env π m n m' log k :
  checkDeviceUpdate env π m n = Done (m', log) →
  k ∈ unchangedTypes (plugin_devices m) n →
  plugin_servers m' !! k = plugin_servers m !! k.
Proof.
  unfold checkDeviceUpdate, unchangedTypes.
  intros Hrun [v [Hn Hold]%map_lookup_filter_Some]%elem_of_dom.
  simpl in Hold. revert Hrun.
  destruct (deviceDiff_lookup π (plugin_devices m) n)
    as (added & updated & removed & -> & Hadd & Hupd & Hrem).
  destruct (foldOutcome (removeStep env) _ _) as [st2| |] eqn:Hloop2; try done.
  simpl. intros Hloop3.
  assert (plugin_servers st2.1 !! k = plugin_servers m !! k) as <-.
  { apply (foldOutcome_project (removeStep env) (λ st, plugin_servers st.1)
             (fun a e => delete e.1 a)) in Hloop2.
    - rewrite Hloop2, deleteFold_lookup, range_list_to_map, Hrem, Hold, Hn.
      rewrite addLoop_servers by apply NoDup_range_keys.
      by rewrite range_list_to_map, Hadd, Hold.
    - intros [m0 log0] [rDevType rDevices] st'. simpl.
      destruct (plugin_servers m0 !! rDevType) as [srv|]; [|done].
      destruct (Stop env srv) as [[[srv' evs] err]| |]; try done. simpl.
      by intros [= <-]. }
  change m' with (m', log).1.
  eapply (foldOutcome_invariant updateStep
            (λ st, plugin_servers st.1 !! k = plugin_servers st2.1 !! k));
    [|done|done].
  intros [m0 log0] [uDevType uDevices] st' Hin. simpl.
  destruct (plugin_servers m0 !! uDevType) as [srv|]; [|done].
  destruct (sendChan (update srv) uDevices) as [update'| |]; try done. simpl.
  intros [= <-] Hsame. simpl. rewrite lookup_insert_ne; [done|].
  intros ->. apply elem_of_range in Hin. rewrite Hupd, Hold, Hn in Hin.
  by rewrite decide_True in Hin.
Qed.

(** ** sendDevices *)

(** [sendDevices] hands the advertised list to the stream; when the stream
    refuses it, the server is stopped and the error of the stream is
    returned. *)
Lemma sendDevices_outcome env π send m :
  lifecycle m →
  ∃ m' evs err,
    sendDevices env π send m
    = Done (m', EvStreamSend (advertised π (devices m)) :: evs, err)
    ∧ err = send (advertised π (devices m))
    ∧ (err = None → m' = m ∧ evs = [])
    ∧ (err ≠ None → server m' = None).
Proof.
  intros Hlife. unfold sendDevices.
  destruct (send (advertised π (devices m))) as [e|] eqn:Hsend.
  - destruct (Stop_returns env m Hlife) as (m' & evs & err & -> & Hnil).
    simpl. by exists m', evs, (Some e).
  - by exists m, [], None.
Qed.

(** C4. Start from the plugin [NewFPGADevicePlugin] creates and let reconcile
    cycles alternate in any way with the work of the servers' goroutines on
    their registered server objects. In the state such a run reaches, the key
    set of the server registry equals the key set of the stored inventory,
    and the stored inventory is the one the last cycle was given. *)
Theorem registry_invariant (steps : list PluginStep) (m : FPGADevicePlugin) :
  runSteps NewFPGADevicePlugin steps = Done m →
  dom (plugin_servers m) = dom (plugin_devices m)
  ∧ plugin_devices m = lastInventory ∅ steps
  ∧ ∀ devType, is_Some (plugin_servers m !! devType)
               ↔ is_Some (plugin_devices m !! devType).
Proof.
  intros Hrun.
  assert (registryInvariant m) as Hinv.
  { eapply (foldOutcome_invariant runStep registryInvariant);
      [intros ??? _; apply runStep_invariant|done|done]. }
  split; [done|]. split; [by apply runSteps_devices in Hrun|].
  intros devType. by rewrite <- !elem_of_dom, Hinv.
Qed.

Lemma registry_invariant_witness :
  ∃ m, runSteps NewFPGADevicePlugin exampleRun = Done m
       ∧ dom (plugin_servers m) = dom (plugin_devices m)
       ∧ plugin_devices m = lastInventory ∅ exampleRun.
Proof.
  destruct (runSteps NewFPGADevicePlugin exampleRun) as [m| |] eqn:Hrun.
  - exists m. split; [done|].
    destruct (registry_invariant exampleRun m Hrun) as (Hdom & Hlast & _).
    by split.
  - vm_compute in Hrun. discriminate.
  - vm_compute in Hrun. discriminate.
Defined.

(** ** The poll loop's grouping *)

(** Every device map the poll loop builds is keyed by device id, and lies
    under the DeviceType of the devices it holds. *)
Lemma groupDevices_keyed devices t sub :
  groupDevices devices !! t = Some sub →
  keyedById sub
  ∧ ∀ id d, sub !! id = Some d → shellVer d +:+ "-" +:+ timestamp d = t.
Proof.
  unfold groupDevices.
  assert (∀ devMap : Inventory,
            (∀ t sub, devMap !! t = Some sub →
               keyedById sub
               ∧ ∀ id d, sub !! id = Some d
                         → shellVer d +:+ "-" +:+ timestamp d = t) →
            ∀ t sub, foldl groupStep devMap devices !! t = Some sub →
               keyedById sub
               ∧ ∀ id d, sub !! id = Some d
                         → shellVer d +:+ "-" +:+ timestamp d = t) as Hgen.
  { induction devices as [|device devices IH]; intros devMap Hinv; [done|].
    cbn [foldl]. apply IH. intros t' sub'. unfold groupStep.
    destruct (devMap !! (shellVer device +:+ "-" +:+ timestamp device))
      as [subMap|] eqn:Hsub;
      (destruct (decide (t' = shellVer device +:+ "-" +:+ timestamp device))
         as [->|Hne];
       [rewrite lookup_insert_eq; intros [= <-]
       |rewrite lookup_insert_ne by done; by apply Hinv]).
    - destruct (Hinv _ _ Hsub) as [Hkey Htype]. split.
      + intros id d. destruct (decide (id = DBDF device)) as [->|?].
        * rewrite lookup_insert_eq. by intros [= <-].
        * rewrite lookup_insert_ne by done. apply Hkey.
      + intros id d. destruct (decide (id = DBDF device)) as [->|?].
        * rewrite lookup_insert_eq. by intros [= <-].
        * rewrite lookup_insert_ne by done. apply Htype.
    - split; intros id d; (destruct (decide (id = DBDF device)) as [->|?];
        [rewrite lookup_insert_eq; by intros [= <-]
        |by rewrite lookup_insert_ne, lookup_empty]). }
  apply Hgen. intros t' sub'. by rewrite lookup_empty.
Qed.

(** * Further properties of the code *)

(** ** Allocate: success, errors and the expanded ids *)

Lemma allocateLoop_app π m creq pre rest response :
  keyedById m → knownIds m pre →
  allocateLoop π m creq (pre ++ rest) response
  = allocateLoop π m (creq + length pre) rest
      (response ++
       imap (λ i ids, grantAll m (serialExpand π m (creq + i) ids)
                               emptyContainerResponse) pre).
Proof.
  intros Hkey Hpre. revert creq response.
  induction Hpre as [|ids pre Hids _ IH]; intros creq response.
  - simpl. by rewrite Nat.add_0_r, app_nil_r.
  - cbn [app allocateLoop].
    rewrite resolveLoop_known by by apply serialExpand_known.
    rewrite IH, <- app_assoc. cbn [length imap app]. rewrite Nat.add_0_r.
    replace (S creq + length pre) with (creq + S (length pre)) by lia.
    do 3 f_equal. apply imap_ext. intros i x _. simpl. do 3 f_equal. lia.
Qed.

Lemma resolveLoop_first_unknown π m creq idx l1 id l2 cres :
  Forall (λ id, is_Some (m !! id)) l1 → m !! id = None →
  resolveLoop π (steady m) creq idx (l1 ++ id :: l2) cres
  = Err (NonExistingDevice id).
Proof.
  intros Hl1 Hid. revert idx cres.
  induction Hl1 as [|x l1 [dev Hdev] _ IH]; intros idx cres; simpl.
  - by rewrite Hid.
  - rewrite Hdev, (deviceExists_lookup _ _ _ _ _ Hdev). simpl. apply IH.
Qed.

(** X1. On a device map keyed by device id, Allocate returns a response
    exactly when every id of the batch is a key of the map. *)
Theorem Allocate_succeeds_iff_known π (m : DeviceMap) (req : AllocateRequest) :
  keyedById m →
  (∃ resp, Allocate π m req = Ok resp) ↔ knownIds m req.
Proof.
  intros Hkey. split.
  - intros [resp Hok]. unfold Allocate in Hok.
    apply allocateLoop_Ok in Hok as [_ Hall].
    apply Forall_forall. intros ids Hids.
    apply list_elem_of_lookup in Hids as [i Hi].
    specialize (Hall i ids Hi). apply Forall_forall. intros id Hid.
    eapply Forall_forall in Hall; [done|].
    by eapply prefix_elem_of; [apply serialExpand_prefix|].
  - intros Hknown. eexists. by apply Allocate_known.
Qed.

Lemma Allocate_succeeds_iff_known_witness :
  (∃ resp, Allocate listedOrder sharedSerialCard
             [["0000:01:00.1"]; ["0000:01:00.0"]] = Ok resp)
  ↔ knownIds sharedSerialCard [["0000:01:00.1"]; ["0000:01:00.0"]].
Proof.
  apply (Allocate_succeeds_iff_known listedOrder sharedSerialCard).
  decide_by_compute.
Defined.

(** X2. The error of Allocate names the first unknown id in request order:
    on a device map keyed by device id, when the container requests before
    it hold known ids only and so do the ids before it in its own request,
    Allocate fails with the "non-existing device" error for that id, whatever
    follows it. *)
Theorem Allocate_reports_first_unknown π (m : DeviceMap)
    (pre post : AllocateRequest) (ids1 ids2 : list string) (id : string) :
  keyedById m → knownIds m pre →
  Forall (λ id, is_Some (m !! id)) ids1 → m !! id = None →
  Allocate π m (pre ++ (ids1 ++ id :: ids2) :: post)
  = Err (NonExistingDevice id).
Proof.
  intros Hkey Hpre Hids1 Hid. unfold Allocate.
  rewrite allocateLoop_app by done. cbn [allocateLoop].
  destruct (serialExpand_prefix π m (0 + length pre) (ids1 ++ id :: ids2))
    as [k ->].
  rewrite <- app_assoc. cbn [app].
  by rewrite resolveLoop_first_unknown.
Qed.

Lemma Allocate_reports_first_unknown_witness :
  Allocate listedOrder sharedSerialCard
    ([["0000:01:00.0"]]
     ++ (["0000:01:00.1"] ++ "0000:07:00.0" :: ["0000:08:00.0"])
     :: [["0000:09:00.0"]])
  = Err (NonExistingDevice "0000:07:00.0").
Proof.
  apply (Allocate_reports_first_unknown listedOrder sharedSerialCard).
  - decide_by_compute.
  - decide_by_compute.
  - decide_by_compute.
  - reflexivity.
Defined.

(** X3. On a device map keyed by device id, the ids Allocate resolves for a
    container request start with the requested ids in request order, and hold
    besides them exactly the ids of the devices whose serial number is not
    "F1-Node" in any letter case and equals the serial number of a requested
    id, where a requested id the map does not hold counts as the empty serial
    number. Which ids are resolved does not depend on the order the map is
    ranged over. *)
Theorem expanded_ids_characterised π (m : DeviceMap) creq ids :
  keyedById m →
  ids `prefix_of` serialExpand π m creq ids
  ∧ (∀ id, id ∈ serialExpand π m creq ids ↔
           id ∈ ids ∨
           ∃ device x, m !! id = Some device ∧ x ∈ ids
                       ∧ ¬ caseVariant (SN device) AWS_SN
                       ∧ SN device = SN (lookupDev m x))
  ∧ (∀ π' creq' id, id ∈ serialExpand π m creq ids
                    ↔ id ∈ serialExpand π' m creq' ids).
Proof.
  intros Hkey. split; [apply serialExpand_prefix|]. split.
  - intros id. rewrite serialExpand_elem_of by done.
    by setoid_rewrite EqualFold_false_iff.
  - intros π' creq' id. by rewrite !serialExpand_elem_of.
Qed.

Lemma expanded_ids_characterised_witness :
  "0000:01:00.1" ∈ serialExpand listedOrder sharedSerialCard 0 ["0000:01:00.0"]
  ↔ "0000:01:00.1" ∈ serialExpand reversedOrder sharedSerialCard 3
                       ["0000:01:00.0"].
Proof.
  destruct (expanded_ids_characterised listedOrder sharedSerialCard 0
              ["0000:01:00.0"]) as (_ & _ & Horder).
  - decide_by_compute.
  - apply Horder.
Defined.

Lemma serialFold_NoDup m id2 devs arr :
  Forall (λ d, EqualFold (DBDF d) AWS_SN = false) devs →
  NoDup arr → NoDup (foldl (serialStep m id2) arr devs).
Proof.
  intros Hdevs. revert arr.
  induction Hdevs as [|d devs Hd _ IH]; intros arr Hnd; simpl; [done|].
  apply IH. unfold serialStep.
  destruct (_ && _) eqn:E; [|done].
  apply andb_true_iff in E as [_ Hc%negb_true_iff].
  apply IsContain_false_iff in Hc as [Hc|Hc]; [|congruence].
  apply NoDup_app. split; [done|]. split; [|apply NoDup_singleton].
  by intros x Hx ->%list_elem_of_singleton.
Qed.

(** X4. When no device id of the map is "F1-Node" in some letter case, the
    expansion of a request that lists no id twice lists no id twice: every
    device is resolved, and its nodes granted, at most once. *)
Theorem expansion_no_duplicates π (m : DeviceMap) creq ids :
  map_Forall (λ _ d, EqualFold (DBDF d) AWS_SN = false) m →
  NoDup ids → NoDup (serialExpand π m creq ids).
Proof.
  intros Hids Hnd. unfold serialExpand.
  generalize (seq 0 (length ids)). intros idxs. revert ids Hnd.
  induction idxs as [|i idxs IH]; intros ids Hnd; simpl; [done|].
  apply IH. unfold serialPass. apply serialFold_NoDup; [|done].
  apply Forall_forall. intros d [k Hk]%elem_of_range_values.
  by apply (Hids k d).
Qed.

Lemma expansion_no_duplicates_witness :
  NoDup (serialExpand listedOrder sharedSerialCard 0
           ["0000:01:00.1"; "0000:01:00.0"]).
Proof.
  apply (expansion_no_duplicates listedOrder sharedSerialCard).
  - decide_by_compute.
  - decide_by_compute.
Defined.

Lemma serialFold_fixed m id2 devs arr :
  (∀ d, d ∈ devs → serialStep m id2 arr d = arr) →
  foldl (serialStep m id2) arr devs = arr.
Proof.
  induction devs as [|d devs IH]; intros Hfix; simpl; [done|].
  rewrite (Hfix d) by left. apply IH. intros d' Hd'. apply Hfix. by right.
Qed.

(** X5. Expanding twice adds nothing: on a device map keyed by device id
    whose ids are not "F1-Node" in any letter case, the expansion of an
    expanded request is that expanded request, whatever orders the map is
    ranged over. *)
Theorem expansion_closed π π' (m : DeviceMap) creq creq' ids :
  keyedById m →
  map_Forall (λ _ d, EqualFold (DBDF d) AWS_SN = false) m →
  serialExpand π' m creq' (serialExpand π m creq ids)
  = serialExpand π m creq ids.
Proof.
  intros Hkey Hids.
  set (E := serialExpand π m creq ids).
  assert (∀ id2 d, id2 < length E → d ∈ (range π' (AtAllocateSerial creq' id2) m).*2 →
            serialStep m id2 E d = E) as Hstep.
  { intros id2 d Hlt [k Hk]%elem_of_range_values. unfold serialStep.
    destruct (String.eqb_spec (SN d) (SN (lookupDev m (nth id2 E ""))))
      as [Hsn|]; [|done].
    destruct (EqualFold (SN d) AWS_SN) eqn:Hreal; [done|]. simpl.
    assert (DBDF d ∈ E) as Hin.
    { pose proof (Hkey k d Hk) as Hkd.
      destruct (lookup_lt_is_Some_2 E id2 Hlt) as [e He].
      rewrite (nth_lookup_Some _ _ "" _ He) in Hsn.
      apply list_elem_of_lookup_2 in He.
      unfold E in He |- *. apply serialExpand_elem_of in He; [|done].
      apply serialExpand_elem_of; [done|]. right.
      destruct He as [He|(dev & x & Hdev & Hx & _ & Hsne)].
      - exists d, e. by rewrite Hkd.
      - exists d, x. rewrite Hkd. split; [done|]. split; [done|].
        split; [done|]. rewrite Hsn. unfold lookupDev at 1. by rewrite Hdev. }
    assert (IsContain E (DBDF d) = true) as ->; [|done].
    apply IsContain_true_iff. split; [done|]. by apply (Hids k d). }
  unfold serialExpand at 1. fold E.
  assert (∀ idxs, Forall (λ i, i < length E) idxs →
            foldl (fun arr id2 => serialPass π' m creq' id2 arr) E idxs = E)
    as Hloop.
  { induction 1 as [|i idxs Hi _ IH]; simpl; [done|].
    unfold serialPass at 2. rewrite serialFold_fixed; [done|].
    intros d Hd. by apply Hstep. }
  apply Hloop, Forall_forall. intros i Hi%elem_of_seq. lia.
Qed.

Lemma expansion_closed_witness :
  serialExpand reversedOrder sharedSerialCard 1
    (serialExpand listedOrder sharedSerialCard 0 ["0000:01:00.0"])
  = serialExpand listedOrder sharedSerialCard 0 ["0000:01:00.0"].
Proof.
  apply (expansion_closed listedOrder reversedOrder sharedSerialCard).
  - decide_by_compute.
  - decide_by_compute.
Defined.

Lemma nodePaths_length dev :
  1 ≤ length (nodePaths dev) ≤ 3.
Proof.
  unfold nodePaths. repeat case_decide; simpl; lia.
Qed.

Lemma bind_nodePaths_length (devs : list Device) :
  length devs ≤ length (devs ≫= nodePaths) ≤ 3 * length devs.
Proof.
  induction devs as [|d devs IH]; [simpl; lia|].
  rewrite bind_cons, length_app. pose proof (nodePaths_length d). simpl. lia.
Qed.

(** X6. In a response Allocate returns, every container response holds as
    many mounts as device-node grants, and between one and three of them per
    resolved id. *)
Theorem grant_count π (m : DeviceMap) req resp creq ids cres :
  Allocate π m req = Ok resp →
  req !! creq = Some ids → resp !! creq = Some cres →
  length (Mounts cres) = length (Devices cres)
  ∧ length (serialExpand π m creq ids) ≤ length (Devices cres)
  ∧ length (Devices cres) ≤ 3 * length (serialExpand π m creq ids).
Proof.
  unfold Allocate. intros [-> _]%allocateLoop_Ok Hreq. simpl.
  rewrite list_lookup_imap, Hreq. simpl. intros [= <-].
  assert (∀ l : list string,
            (lookupDev m <$> l) ≫= nodePaths
            = l ≫= λ id, nodePaths (lookupDev m id)) as Hbind
    by (intros l; by rewrite list_fmap_bind).
  rewrite grantAll_Devices, grantAll_Mounts, <- !Hbind.
  change (Devices emptyContainerResponse) with (@nil DeviceSpec).
  change (Mounts emptyContainerResponse) with (@nil Mount).
  rewrite !app_nil_l, !length_fmap.
  pose proof (bind_nodePaths_length
                (lookupDev m <$> serialExpand π m creq ids)) as Hlen.
  rewrite length_fmap in Hlen. lia.
Qed.

Lemma grant_count_witness :
  length (Mounts (grantNodes cardFn1 (grantNodes cardFn0 emptyContainerResponse)))
  = length (Devices (grantNodes cardFn1 (grantNodes cardFn0 emptyContainerResponse)))
  ∧ length (serialExpand listedOrder sharedSerialCard 0 ["0000:01:00.0"])
    ≤ length (Devices (grantNodes cardFn1
                         (grantNodes cardFn0 emptyContainerResponse)))
  ∧ length (Devices (grantNodes cardFn1
                       (grantNodes cardFn0 emptyContainerResponse)))
    ≤ 3 * length (serialExpand listedOrder sharedSerialCard 0 ["0000:01:00.0"]).
Proof.
  apply (grant_count listedOrder sharedSerialCard [["0000:01:00.0"]]
           [grantNodes cardFn1 (grantNodes cardFn0 emptyContainerResponse)]
           0 ["0000:01:00.0"]).
  - vm_compute. reflexivity.
  - reflexivity.
  - reflexivity.
Defined.

(** ** Advertisement and what it lets the kubelet allocate *)

(** X7. On a device map keyed by device id, the advertised list names no
    device id twice, names ids of the map only, and is no longer than the
    map. *)
Theorem advertised_ids_distinct π (m : DeviceMap) :
  keyedById m →
  NoDup (ID <$> advertised π m)
  ∧ (∀ e, e ∈ advertised π m → is_Some (m !! ID e))
  ∧ length (advertised π m) ≤ size m.
Proof.
  intros Hkey. rewrite advertised_kept. split; [|split].
  - rewrite <- list_fmap_compose. by apply kept_NoDup_ids.
  - intros e [d [-> Hd]]%list_elem_of_fmap.
    apply (kept_lookup π m d Hkey) in Hd as [Hd _]. simpl. by rewrite Hd.
  - rewrite length_fmap.
    etrans; [apply sublist_length, keptDevices_sublist|].
    rewrite length_fmap, <- (length_map_to_list m).
    apply Nat.eq_le_incl, Permutation_length, range_Permutation.
Qed.

Lemma advertised_ids_distinct_witness :
  NoDup (ID <$> advertised listedOrder dedupExample)
  ∧ (∀ e, e ∈ advertised listedOrder dedupExample
          → is_Some (dedupExample !! ID e))
  ∧ length (advertised listedOrder dedupExample) ≤ size dedupExample.
Proof.
  apply (advertised_ids_distinct listedOrder dedupExample).
  decide_by_compute.
Defined.

Lemma keptDevices_nil devs :
  keptDevices [] devs = [] ↔ Forall (λ d, SN d = "") devs.
Proof.
  induction devs as [|d devs IH]; simpl; [done|].
  destruct (String.eqb_spec (SN d) "") as [He|Hne].
  - rewrite IH. split; [by constructor|]. by intros [_ ?]%Forall_cons.
  - split; [done|]. by intros [? _]%Forall_cons.
Qed.

(** X8. Nothing is advertised exactly when every device of the map has an
    empty serial number. *)
Theorem advertised_empty_iff π (m : DeviceMap) :
  advertised π m = [] ↔ ∀ k d, m !! k = Some d → SN d = "".
Proof.
  rewrite advertised_kept.
  assert (apiDevice <$> keptDevices [] (range π AtSendDevices m).*2 = []
          ↔ keptDevices [] (range π AtSendDevices m).*2 = []) as ->
    by (split; [apply fmap_nil_inv|by intros ->]).
  rewrite keptDevices_nil, Forall_forall.
  split.
  - intros Hall k d Hk. apply Hall, elem_of_range_values. eauto.
  - intros Hall d [k Hk]%elem_of_range_values. by eapply Hall.
Qed.

Lemma kept_serial_representative π (m : DeviceMap) k d :
  keyedById m → m !! k = Some d → SN d ≠ "" →
  ∃ d', d' ∈ keptDevices [] (range π AtSendDevices m).*2
        ∧ (d' = d ∨ (SN d' = SN d ∧ EqualFold (SN d) AWS_SN = false)).
Proof.
  intros Hkey Hk Hne.
  assert (d ∈ (range π AtSendDevices m).*2) as Hd
    by (apply elem_of_range_values; eauto).
  destruct (EqualFold (SN d) AWS_SN) eqn:Hreal.
  - exists d. split; [by apply keptDevices_placeholder|by left].
  - pose proof (keptDevices_serial_count []
                  (range π AtSendDevices m).*2 (SN d) Hne Hreal) as Hcount.
    rewrite decide_False in Hcount by (intros H; by apply elem_of_nil in H).
    rewrite decide_True in Hcount by by apply list_elem_of_fmap_2.
    destruct (filter (λ d0, SN d0 = SN d) _) as [|d' rest] eqn:Hf; [done|].
    assert (d' ∈ filter (λ d0, SN d0 = SN d)
                   (keptDevices [] (range π AtSendDevices m).*2)) as Hin
      by (rewrite Hf; left).
    apply list_elem_of_filter in Hin as [Hsn Hin].
    exists d'. split; [done|]. by right.
Qed.

(** X9. On a device map keyed by device id, every device with a non-empty
    serial number can be allocated through the advertised list: some
    advertised id, requested alone, is answered with a response that grants
    that device's nodes. *)
Theorem advertised_id_reaches_device π (m : DeviceMap) k d :
  keyedById m → m !! k = Some d → SN d ≠ "" →
  ∃ e, e ∈ advertised π m
       ∧ ∀ π', ∃ cres, Allocate π' m [[ID e]] = Ok [cres]
                       ∧ grantsDevice cres d.
Proof.
  intros Hkey Hk Hne.
  destruct (kept_serial_representative π m k d Hkey Hk Hne)
    as (d' & Hkept & Hrel).
  pose proof (kept_lookup π m d' Hkey Hkept) as [Hd' _].
  exists (apiDevice d'). split.
  { rewrite advertised_kept. by apply list_elem_of_fmap_2. }
  intros π'. simpl.
  rewrite Allocate_known;
    [|done|constructor; [|done]; constructor; [by rewrite Hd'|done]].
  eexists. split; [done|]. simpl.
  apply grantAll_grantsDevice with (id := k); [|done].
  apply serialExpand_elem_of; [done|].
  destruct Hrel as [->|[Hsn Hreal]].
  - left. rewrite (Hkey k d Hk). left.
  - right. exists d, (DBDF d'). split; [done|]. split; [left|].
    split; [done|]. unfold lookupDev. by rewrite Hd'.
Qed.

Lemma advertised_id_reaches_device_witness :
  ∃ e, e ∈ advertised listedOrder sharedSerialCard
       ∧ ∀ π', ∃ cres, Allocate π' sharedSerialCard [[ID e]] = Ok [cres]
                       ∧ grantsDevice cres cardFn1.
Proof.
  apply (advertised_id_reaches_device listedOrder sharedSerialCard
           "0000:01:00.1" cardFn1).
  - decide_by_compute.
  - reflexivity.
  - discriminate.
Defined.

(** X10. On a device map keyed by device id, a request made of advertised
    ids never resolves a device with an empty serial number: such a device is
    neither advertised nor pulled in by the expansion. *)
Theorem advertised_ids_never_reach_blank π π' (m : DeviceMap) creq ids k d :
  keyedById m →
  Forall (λ id, id ∈ ID <$> advertised π m) ids →
  m !! k = Some d → SN d = "" →
  k ∉ serialExpand π' m creq ids.
Proof.
  intros Hkey Hadv Hk Hblank Hin.
  assert (∀ x, x ∈ ids → ∃ d', m !! x = Some d' ∧ SN d' ≠ "") as Hfull.
  { intros x Hx. eapply Forall_forall in Hadv; [|done].
    rewrite advertised_kept, <- list_fmap_compose in Hadv.
    apply list_elem_of_fmap in Hadv as [d' [-> Hd']].
    apply (kept_lookup π m d' Hkey) in Hd'. by exists d'. }
  apply serialExpand_elem_of in Hin; [|done].
  destruct Hin as [Hin|(device & x & Hdev & Hx & _ & Hsn)].
  - destruct (Hfull k Hin) as (d' & Hd' & Hne). congruence.
  - destruct (Hfull x Hx) as (d' & Hd' & Hne).
    unfold lookupDev in Hsn. rewrite Hd' in Hsn. simpl in Hsn. congruence.
Qed.

Lemma advertised_ids_never_reach_blank_witness :
  "0000:02:00.0" ∉ serialExpand reversedOrder dedupExample 0
                     (ID <$> advertised listedOrder dedupExample).
Proof.
  apply (advertised_ids_never_reach_blank listedOrder reversedOrder
           dedupExample 0 _ "0000:02:00.0" blankFn0).
  - decide_by_compute.
  - decide_by_compute.
  - reflexivity.
  - reflexivity.
Defined.

(** ** Start, Serve and the life of a server object *)

Lemma Start_effect env (m : FPGADevicePluginServer) :
  ∃ m' evs err,
    Start env m = (m', evs, err)
    ∧ (devType m' = devType m ∧ devices m' = devices m
       ∧ socket m' = socket m ∧ stop m' = stop m ∧ update m' = update m)
    ∧ (err = None →
         server m' = Some (socket m)
         ∧ evs = [EvRemove (socket m); EvListen (socket m);
                  EvGrpcServe (socket m)])
    ∧ (EvListen (socket m) ∈ evs →
         os_Remove env (socket m) = None
         ∨ os_Remove env (socket m) = Some ErrNotExist)
    ∧ (server m' ≠ server m →
         net_Listen env (socket m) = None
         ∧ err = grpc_Dial env (socket m))
    ∧ (net_Listen env (socket m) = None → EvListen (socket m) ∈ evs →
         server m' = Some (socket m) ∧ err = grpc_Dial env (socket m)).
Proof.
  unfold Start, cleanup.
  destruct (os_Remove env (socket m)) as [[|msg]|] eqn:Hrm; simpl;
    [destruct (net_Listen env (socket m)) as [e|] eqn:Hl| |
     destruct (net_Listen env (socket m)) as [e|] eqn:Hl];
    (eexists _, _, _; split; [reflexivity|]; repeat split; try done;
     try (by auto); try (by intros []);
     try (by intros [?|[]%elem_of_nil]%elem_of_cons);
     exfalso;
     match goal with
     | H : _ ∈ [_] |- _ => by apply list_elem_of_singleton in H
     end).
Qed.

(** X11. [Start] changes nothing of the server object but its gRPC server.
    It binds the socket only when the stale socket file was removed or did
    not exist, and sets the gRPC server only when the bind succeeded; when it
    returns [nil] the server serves its socket, after removing the stale
    file, binding and starting to serve, in that order. A readiness probe
    that fails leaves the gRPC server set. *)
Theorem Start_binds_after_cleanup env (m : FPGADevicePluginServer) :
  ∃ m' evs err,
    Start env m = (m', evs, err)
    ∧ (devType m' = devType m ∧ devices m' = devices m
       ∧ socket m' = socket m ∧ stop m' = stop m ∧ update m' = update m)
    ∧ (err = None →
         server m' = Some (socket m)
         ∧ evs = [EvRemove (socket m); EvListen (socket m);
                  EvGrpcServe (socket m)])
    ∧ (EvListen (socket m) ∈ evs →
         os_Remove env (socket m) = None
         ∨ os_Remove env (socket m) = Some ErrNotExist)
    ∧ (server m' ≠ server m →
         net_Listen env (socket m) = None
         ∧ err = grpc_Dial env (socket m))
    ∧ (net_Listen env (socket m) = None → EvListen (socket m) ∈ evs →
         server m' = Some (socket m) ∧ err = grpc_Dial env (socket m)).
Proof. apply Start_effect. Qed.

Lemma Serve_start_failed env kub m resourceName e :
  (Start env m).2 = Some e →
  Serve env kub m resourceName
  = Done ((Start env m).1.1, OfServer <$> (Start env m).1.2, Some e).
Proof.
  unfold Serve. destruct (Start env m) as [[m1 evs] err]. simpl.
  by intros ->.
Qed.

(** X12. On a server object whose channels are open, [Serve] returns, and
    what it has done is this, in this order and nothing else. If it returns
    [nil], the server serves its socket, after the steps of [Start], one dial
    of the kubelet socket and one registration request with the plugin API
    version, the base name of the socket and the resource name. If [Start]
    succeeded and [Serve] returns an error, the error is the one of the dial
    (then no registration request was sent) or, after a dial that succeeded,
    the one of the single registration request, and the server has been
    stopped: gRPC server stopped, both channels closed, socket file removed.
    If [Start] failed, [Serve] returns its error, has done what [Start] did,
    never dials the kubelet, and leaves the server as [Start] left it. *)
Theorem Serve_outcome env kub (m : FPGADevicePluginServer) resourceName :
  chan_closed (stop m) = false → chan_closed (update m) = false →
  ∃ m' evs err,
    Serve env kub m resourceName = Done (m', evs, err)
    ∧ (err = None →
         server m' = Some (socket m) ∧ lifecycle m'
         ∧ evs = [OfServer (EvRemove (socket m));
                  OfServer (EvListen (socket m));
                  OfServer (EvGrpcServe (socket m));
                  EvKubeletDial KubeletSocket;
                  EvRegister (mkRegisterRequest pluginapi_Version
                                (path_Base kub (socket m)) resourceName)])
    ∧ ((Start env m).2 = None → is_Some err →
         server m' = None
         ∧ chan_closed (stop m') = true ∧ chan_closed (update m') = true
         ∧ (err = kubelet_Dial kub KubeletSocket
            ∧ evs = [OfServer (EvRemove (socket m));
                     OfServer (EvListen (socket m));
                     OfServer (EvGrpcServe (socket m));
                     EvKubeletDial KubeletSocket;
                     OfServer EvGrpcStop;
                     OfServer (EvClose "stop"); OfServer (EvClose "update");
                     OfServer (EvRemove (socket m))]
            ∨ kubelet_Dial kub KubeletSocket = None
              ∧ err = kubelet_Register kub
                        (mkRegisterRequest pluginapi_Version
                           (path_Base kub (socket m)) resourceName)
              ∧ evs = [OfServer (EvRemove (socket m));
                       OfServer (EvListen (socket m));
                       OfServer (EvGrpcServe (socket m));
                       EvKubeletDial KubeletSocket;
                       EvRegister (mkRegisterRequest pluginapi_Version
                                     (path_Base kub (socket m)) resourceName);
                       OfServer EvGrpcStop;
                       OfServer (EvClose "stop"); OfServer (EvClose "update");
                       OfServer (EvRemove (socket m))]))
    ∧ (∀ e, (Start env m).2 = Some e →
            err = Some e ∧ m' = (Start env m).1.1
            ∧ evs = OfServer <$> (Start env m).1.2
            ∧ EvKubeletDial KubeletSocket ∉ evs).
Proof.
  intros Hs Hu.
  destruct (Start_effect env m)
    as (m1 & evs & err & HStart & (Hdt & Hdev & Hsock & Hstop & Hupd)
        & Hok & _).
  destruct err as [e|].
  - rewrite (Serve_start_failed env kub m resourceName e)
      by by rewrite HStart.
    rewrite HStart. simpl. eexists _, _, _. split; [done|].
    split; [done|]. split; [done|]. intros e' [= <-].
    split; [done|]. split; [done|]. split; [done|].
    intros [? [? _]]%list_elem_of_fmap. done.
  - destruct (Hok eq_refl) as [Hsrv ->]. unfold Serve. rewrite HStart.
    unfold Register. rewrite Hsock.
    destruct (kubelet_Dial kub KubeletSocket) as [e|] eqn:Hdial;
      [|destruct (kubelet_Register kub _) as [e|] eqn:Hreg].
    + rewrite (Stop_serving env m1 (socket m) Hsrv)
        by (by rewrite ?Hstop, ?Hupd). simpl.
      eexists _, _, _. split; [done|]. split; [done|].
      split; [|done]. intros _ _. rewrite Hsock.
      split; [done|]. split; [done|]. split; [done|]. by left.
    + rewrite (Stop_serving env m1 (socket m) Hsrv)
        by (by rewrite ?Hstop, ?Hupd). simpl.
      eexists _, _, _. split; [done|]. split; [done|].
      split; [|done]. intros _ _. rewrite Hsock.
      split; [done|]. split; [done|]. split; [done|]. by right.
    + simpl. eexists _, _, _. split; [done|]. split; [|split; [|done]].
      * intros _. split; [done|]. split; [|done].
        intros _. by rewrite Hstop, Hupd.
      * by intros _ [? [=]].
Qed.

Lemma Serve_outcome_witness :
  ∃ m' evs err,
    Serve quietEnv refusingKubelet createdServer "xilinx.com/fpga-v1-t1"
    = Done (m', evs, err)
    ∧ server m' = None
    ∧ chan_closed (stop m') = true ∧ chan_closed (update m') = true
    ∧ err = Some (ErrOther "registration refused")
    ∧ length evs = 9.
Proof.
  destruct (Serve_outcome quietEnv refusingKubelet createdServer
              "xilinx.com/fpga-v1-t1") as (m' & evs & err & Hrun & _ & Hreg & _).
  - reflexivity.
  - reflexivity.
  - exists m', evs, err. split; [done|].
    assert (is_Some err) as Herr.
    { vm_compute in Hrun. injection Hrun as _ _ <-. by eexists. }
    destruct (Hreg eq_refl Herr)
      as (Hsrv & Hstop & Hupd & [[Hdial _]|(_ & Hrefused & Hevs)]).
    + rewrite Hdial in Herr. by destruct Herr.
    + split; [done|]. split; [done|]. split; [done|].
      split; [by rewrite Hrefused|by rewrite Hevs].
Defined.

(** X13. A stopped server object cannot be served again: once [Stop] has
    stopped a serving server, a later [Start] that binds the socket sets the
    gRPC server on closed channels, and the next [Stop] panics on closing
    them. *)
Theorem Stop_after_restart_panics env env2 env3 (m : FPGADevicePluginServer) :
  is_Some (server m) → lifecycle m →
  os_Remove env2 (socket m) = None
  ∨ os_Remove env2 (socket m) = Some ErrNotExist →
  net_Listen env2 (socket m) = None →
  ∃ m1 evs err,
    Stop env m = Done (m1, evs, err)
    ∧ is_Some (server (Start env2 m1).1.1)
    ∧ ¬ lifecycle (Start env2 m1).1.1
    ∧ Stop env3 (Start env2 m1).1.1 = Panic "close of closed channel".
Proof.
  intros [sock Hsrv] Hlife Hrm Hl.
  destruct Hlife as [Hs Hu]; [by rewrite Hsrv|].
  rewrite (Stop_serving env m sock Hsrv Hs Hu).
  eexists _, _, _. split; [done|].
  unfold Start, cleanup. simpl.
  destruct Hrm as [-> | ->]; simpl; rewrite Hl; simpl.
  - split; [by eexists|]. split; [|done].
    intros Hlife. destruct Hlife as [? _]; [by eexists|done].
  - split; [by eexists|]. split; [|done].
    intros Hlife. destruct Hlife as [? _]; [by eexists|done].
Qed.

Lemma Stop_after_restart_panics_witness :
  ∃ m1 evs err,
    Stop deniedEnv servingServer = Done (m1, evs, err)
    ∧ is_Some (server (Start quietEnv m1).1.1)
    ∧ ¬ lifecycle (Start quietEnv m1).1.1
    ∧ Stop quietEnv (Start quietEnv m1).1.1 = Panic "close of closed channel".
Proof.
  apply (Stop_after_restart_panics deniedEnv quietEnv quietEnv servingServer).
  - by eexists.
  - decide_by_compute.
  - by right.
  - reflexivity.
Defined.

(** ** ListAndWatch *)

Lemma watchLoop_open_stream env πs send i pending m log :
  (∀ resp, send resp = None) →
  chan_buf (update m) = pending →
  watchLoop env πs send i pending m log
  = if chan_closed (update m)
    then WatchReturned (drained m) (log ++ streamSends πs i pending) None
    else WatchWaiting (drained m) (log ++ streamSends πs i pending).
Proof.
  intros Hsend. revert i m log.
  induction pending as [|snapshot rest IH]; intros i m log Hbuf.
  - simpl. unfold drained, streamSends. rewrite Hbuf, app_nil_r. simpl.
    destruct m as [? ? ? ? [? ? ?] ?]. simpl in *. by subst.
  - cbn [watchLoop]. unfold sendDevices. rewrite Hsend.
    rewrite IH by done. simpl.
    assert (drained
              {| devType := devType m; devices := snapshot;
                 socket := socket m; stop := stop m;
                 update := {| chan_closed := chan_closed (update m);
                              chan_buf := rest;
                              chan_cap := chan_cap (update m) |};
                 server := server m |} = drained m) as ->.
    { unfold drained. simpl. rewrite Hbuf. f_equal.
      destruct rest as [|r rest]; [done|]. simpl.
      by destruct (last (r :: rest)) eqn:E;
        [|apply last_None in E]. }
    assert ((log ++ [EvStreamSend (advertised (πs i) snapshot)])
            ++ streamSends πs (S i) rest
            = log ++ streamSends πs i (snapshot :: rest)) as ->; [|done].
    rewrite <- app_assoc. f_equal. unfold streamSends. simpl.
    rewrite Nat.add_0_r. f_equal. apply imap_ext. intros j x _. simpl.
    do 3 f_equal. lia.
Qed.

(** X14. While the stream takes every response, [ListAndWatch] sends one
    response per snapshot its update channel holds, in the order they were
    sent to it, each the advertisement of that snapshot, and leaves the
    server with the last snapshot as its device map and an empty channel;
    then it returns [nil] if the channel is closed and waits if it is open.
    Nothing else of the server object changes. *)
Theorem ListAndWatch_follows_snapshots env πs send
    (m : FPGADevicePluginServer) :
  (∀ resp, send resp = None) →
  ListAndWatch env πs send m
  = if chan_closed (update m)
    then WatchReturned (drained m)
                       (streamSends πs 0 (chan_buf (update m))) None
    else WatchWaiting (drained m) (streamSends πs 0 (chan_buf (update m))).
Proof.
  intros Hsend. unfold ListAndWatch.
  by rewrite (watchLoop_open_stream env πs send 0 _ m []).
Qed.

Lemma ListAndWatch_follows_snapshots_witness :
  ListAndWatch quietEnv (λ _, listedOrder) openStream watchedServer
  = if chan_closed (update watchedServer)
    then WatchReturned (drained watchedServer)
           (streamSends (λ _, listedOrder) 0 (chan_buf (update watchedServer)))
           None
    else WatchWaiting (drained watchedServer)
           (streamSends (λ _, listedOrder) 0 (chan_buf (update watchedServer))).
Proof.
  apply (ListAndWatch_follows_snapshots quietEnv (λ _, listedOrder) openStream
           watchedServer).
  reflexivity.
Defined.

Lemma watchLoop_broken_stream env πs send i pre snapshot post m log sock e :
  (∀ j p, pre !! j = Some p → send (advertised (πs (i + j)) p) = None) →
  send (advertised (πs (i + length pre)) snapshot) = Some e →
  server m = Some sock →
  chan_closed (stop m) = false → chan_closed (update m) = false →
  watchLoop env πs send i (pre ++ snapshot :: post) m log
  = WatchReturned
      (mkServer (devType m) snapshot (socket m)
                (mkChan true (chan_buf (stop m)) (chan_cap (stop m)))
                (mkChan true post (chan_cap (update m))) None)
      (log ++ streamSends πs i (pre ++ [snapshot])
           ++ [EvGrpcStop; EvClose "stop"; EvClose "update";
               EvRemove (socket m)])
      (Some e).
Proof.
  revert i m log.
  induction pre as [|p pre IH]; intros i m log Hpre Hfail Hsrv Hs Hu.
  - cbn [app watchLoop length]. rewrite Nat.add_0_r in Hfail.
    unfold sendDevices. cbn [devices]. rewrite Hfail.
    rewrite (Stop_serving env _ sock) by done. simpl.
    unfold streamSends. simpl. by rewrite Nat.add_0_r.
  - assert (send (advertised (πs i) p) = None) as Hp
      by (rewrite <- (Nat.add_0_r i); by apply Hpre).
    cbn [app watchLoop]. unfold sendDevices. cbn [devices]. rewrite Hp.
    rewrite (IH (S i)); try done.
    + simpl. f_equal. rewrite <- !app_assoc. f_equal.
      unfold streamSends. simpl. rewrite Nat.add_0_r. do 2 f_equal.
      apply imap_ext. intros j x _. simpl. do 3 f_equal. lia.
    + intros j q Hq. replace (S i + j) with (i + S j) by lia. by apply Hpre.
    + rewrite <- Hfail. simpl. do 3 f_equal. lia.
Qed.

(** X15. When the stream refuses a response, [ListAndWatch] on a serving
    server stops the whole server and returns the error of the stream: the
    snapshots before the refused one have been sent, the refused one is the
    server's device map, the later ones stay unsent in the closed channel,
    and the socket file's removal has been attempted. *)
Theorem ListAndWatch_stops_on_send_failure env πs send
    (m : FPGADevicePluginServer) pre snapshot post sock e :
  chan_buf (update m) = pre ++ snapshot :: post →
  (∀ j p, pre !! j = Some p → send (advertised (πs j) p) = None) →
  send (advertised (πs (length pre)) snapshot) = Some e →
  server m = Some sock →
  chan_closed (stop m) = false → chan_closed (update m) = false →
  ∃ m' log,
    ListAndWatch env πs send m = WatchReturned m' log (Some e)
    ∧ server m' = None ∧ devices m' = snapshot
    ∧ chan_closed (stop m') = true ∧ chan_closed (update m') = true
    ∧ chan_buf (update m') = post
    ∧ log = streamSends πs 0 (pre ++ [snapshot])
            ++ [EvGrpcStop; EvClose "stop"; EvClose "update";
                EvRemove (socket m)].
Proof.
  intros Hbuf Hpre Hfail Hsrv Hs Hu. unfold ListAndWatch. rewrite Hbuf.
  rewrite (watchLoop_broken_stream env πs send 0 pre snapshot post m [] sock e)
    by done.
  eexists _, _. split; [done|]. by repeat split.
Qed.

Lemma ListAndWatch_stops_on_send_failure_witness :
  ∃ m' log,
    ListAndWatch quietEnv (λ _, listedOrder) brokenStream watchedServer
    = WatchReturned m' log (Some (ErrOther "transport is closing"))
    ∧ server m' = None ∧ devices m' = dedupExample
    ∧ chan_closed (stop m') = true ∧ chan_closed (update m') = true
    ∧ chan_buf (update m') = [emptySerialPair]
    ∧ log = streamSends (λ _, listedOrder) 0 ([] ++ [dedupExample])
            ++ [EvGrpcStop; EvClose "stop"; EvClose "update";
                EvRemove (socket watchedServer)].
Proof.
  apply (ListAndWatch_stops_on_send_failure quietEnv (λ _, listedOrder)
           brokenStream watchedServer [] dedupExample [emptySerialPair]
           (socket servingServer)).
  - reflexivity.
  - intros j p Hj. discriminate.
  - reflexivity.
  - reflexivity.
  - reflexivity.
  - reflexivity.
Defined.

(** ** Reconcile cycles *)

Lemma range_empty {V} π s : range π s (∅ : gmap string V) = [].
Proof.
  apply Permutation_nil_r. rewrite range_Permutation.
  by rewrite map_to_list_empty.
Qed.

(** X16. A cycle whose polled inventory equals the stored one does nothing:
    it returns the plugin as it was, starts no goroutine, stops no server and
    sends no snapshot, whatever state the servers are in. *)
Theorem same_inventory_changes_nothing env π (m : FPGADevicePlugin) :
  checkDeviceUpdate env π m (plugin_devices m) = Done (m, []).
Proof.
  unfold checkDeviceUpdate.
  destruct (deviceDiff_lookup π (plugin_devices m) (plugin_devices m))
    as (added & updated & removed & -> & Hadd & Hupd & Hrem).
  assert (added = ∅) as ->.
  { apply map_eq. intros k. rewrite Hadd, lookup_empty.
    by destruct (plugin_devices m !! k). }
  assert (updated = ∅) as ->.
  { apply map_eq. intros k. rewrite Hupd, lookup_empty.
    destruct (plugin_devices m !! k); [|done]. by rewrite decide_True. }
  assert (removed = ∅) as ->.
  { apply map_eq. intros k. rewrite Hrem, lookup_empty.
    by destruct (plugin_devices m !! k). }
  rewrite !range_empty. simpl. by destruct m.
Qed.

(** X17. A cycle returns, without panic and without waiting, whenever the
    registry invariant holds and every registered server is in a lifecycle
    state with an open update channel that has room. *)
Theorem cycle_returns_when_ready env π (m : FPGADevicePlugin) (n : Inventory) :
  registryInvariant m → readyServers m →
  ∃ m' log, checkDeviceUpdate env π m n = Done (m', log)
            ∧ registryInvariant m' ∧ plugin_devices m' = n.
Proof.
  intros Hinv Hready.
  destruct (checkDeviceUpdate_returns env π m n Hinv Hready)
    as (m' & log & Hrun).
  exists m', log. split; [done|]. split.
  - by eapply checkDeviceUpdate_invariant.
  - by eapply checkDeviceUpdate_devices.
Qed.

Lemma cycle_returns_when_ready_witness :
  ∃ m' log,
    checkDeviceUpdate deniedEnv reversedOrder servingPlugin
      (groupDevices [cardFn0; otherShellFn]) = Done (m', log)
    ∧ registryInvariant m'
    ∧ plugin_devices m' = groupDevices [cardFn0; otherShellFn].
Proof.
  apply (cycle_returns_when_ready deniedEnv reversedOrder servingPlugin).
  - vm_compute. reflexivity.
  - decide_by_compute.
Defined.

Lemma sendChan_Done {A} (c c' : Chan A) x :
  sendChan c x = Done c' →
  c' = mkChan false (chan_buf c ++ [x]) (chan_cap c).
Proof.
  unfold sendChan. destruct (chan_closed c); [done|].
  destruct (_ <? _); [|done]. by intros [= <-].
Qed.

Lemma updateLoop_servers (l : list (string * DeviceMap)) st st' k :
  NoDup l.*1 →
  foldOutcome updateStep st l = Done st' →
  plugin_servers st'.1 !! k
  = match (list_to_map l : Inventory) !! k with
    | Some v => (λ srv, delivered srv v) <$> plugin_servers st.1 !! k
    | None => plugin_servers st.1 !! k
    end.
Proof.
  revert st. induction l as [|[k0 v0] l IH]; intros [m log] Hnd.
  - simpl. intros [= <-]. by rewrite lookup_empty.
  - apply NoDup_cons in Hnd as [Hk0 Hnd]. cbn [foldOutcome updateStep].
    destruct (plugin_servers m !! k0) as [srv|] eqn:Hsrv; [|done].
    destruct (sendChan (update srv) v0) as [update'| |] eqn:Hsend; try done.
    apply sendChan_Done in Hsend as ->. simpl. intros Hrun.
    rewrite (IH _ Hnd Hrun). cbn [list_to_map foldr uncurry fst snd].
    destruct (decide (k = k0)) as [->|Hne].
    + rewrite lookup_insert_eq, (not_elem_of_list_to_map_1 _ _ Hk0).
      simpl. by rewrite lookup_insert_eq, Hsrv.
    + rewrite lookup_insert_ne by done. simpl.
      by rewrite lookup_insert_ne.
Qed.

(** X18. The server registry after a cycle that starts with the registry
    invariant and returns, DeviceType by DeviceType: an added DeviceType has a newly created server holding the
    polled device map; an updated one keeps its server, with the polled
    device map put last into its update channel; an unchanged one keeps its
    server as it was; a removed one has no server. *)
Theorem registry_after_cycle env π (m m' : FPGADevicePlugin) n log k :
  registryInvariant m →
  checkDeviceUpdate env π m n = Done (m', log) →
  plugin_servers m' !! k
  = match plugin_devices m !! k, n !! k with
    | None, Some v => Some (NewFPGADevicePluginServer env k v)
    | Some a, Some b =>
        if decide (a = b) then plugin_servers m !! k
        else (λ srv, delivered srv b) <$> plugin_servers m !! k
    | _, None => None
    end.
Proof.
  intros Hinv. unfold checkDeviceUpdate.
  destruct (deviceDiff_lookup π (plugin_devices m) n)
    as (added & updated & removed & -> & Hadd & Hupd & Hrem).
  destruct (foldOutcome (removeStep env) _ _) as [st2| |] eqn:Hloop2; try done.
  simpl. intros Hloop3.
  apply (updateLoop_servers _ _ _ k (NoDup_range_keys _ _ _)) in Hloop3.
  simpl in Hloop3. rewrite Hloop3, range_list_to_map, Hupd.
  assert (plugin_servers st2.1 !! k
          = match removed !! k with
            | Some _ => None
            | None => match added !! k with
                      | Some v => Some (NewFPGADevicePluginServer env k v)
                      | None => plugin_servers m !! k
                      end
            end) as ->.
  { apply (foldOutcome_project (removeStep env) (λ st, plugin_servers st.1)
             (fun a e => delete e.1 a)) in Hloop2.
    - rewrite Hloop2, deleteFold_lookup, range_list_to_map.
      rewrite addLoop_servers by apply NoDup_range_keys.
      by rewrite range_list_to_map.
    - intros [m0 log0] [rDevType rDevices] st'. simpl.
      destruct (plugin_servers m0 !! rDevType) as [srv|]; [|done].
      destruct (Stop env srv) as [[[srv' evs] err]| |]; try done. simpl.
      by intros [= <-]. }
  rewrite Hrem, Hadd.
  destruct (plugin_devices m !! k) as [a|] eqn:HA, (n !! k) as [b|] eqn:HB;
    try done.
  - by destruct (decide (a = b)).
  - apply not_elem_of_dom. rewrite Hinv. by apply not_elem_of_dom.
Qed.

Lemma registry_after_cycle_witness :
  ∃ m' log,
    checkDeviceUpdate quietEnv listedOrder servingPlugin
      (groupDevices [cardFn0]) = Done (m', log)
    ∧ plugin_servers m' !! "v1-t1"
      = Some (delivered servingServer (<["0000:01:00.0" := cardFn0]> ∅)).
Proof.
  destruct (checkDeviceUpdate quietEnv listedOrder servingPlugin
              (groupDevices [cardFn0])) as [[m' log]| |] eqn:Hrun.
  - exists m', log. split; [done|].
    rewrite (registry_after_cycle quietEnv listedOrder servingPlugin m'
               (groupDevices [cardFn0]) log "v1-t1"); [| |done].
    + vm_compute. reflexivity.
    + vm_compute. reflexivity.
  - vm_compute in Hrun. discriminate.
  - vm_compute in Hrun. discriminate.
Defined.

Lemma updateLoop_stuck (l : list (string * DeviceMap)) st k srv
    (bad : Outcome (FPGADevicePlugin * list Event)) :
  NoDup l.*1 → k ∈ l.*1 →
  plugin_servers st.1 !! k = Some srv →
  (∀ v (f : Chan DeviceMap → Outcome (FPGADevicePlugin * list Event)),
     sendChan (update srv) v ≫= f = bad) →
  (∀ g : FPGADevicePlugin * list Event
         → Outcome (FPGADevicePlugin * list Event), bad ≫= g = bad) →
  (∀ k', k' ∈ l.*1 → k' ≠ k →
     ∃ s, plugin_servers st.1 !! k' = Some s
          ∧ chan_closed (update s) = false
          ∧ length (chan_buf (update s)) < chan_cap (update s)) →
  foldOutcome updateStep st l = bad.
Proof.
  intros Hnd Hk Hsrv Hbad Hbind. revert st Hnd Hk Hsrv.
  induction l as [|[k0 v0] l IH]; intros [m log] Hnd Hk Hsrv Hothers.
  - by apply elem_of_nil in Hk.
  - apply NoDup_cons in Hnd as [Hk0 Hnd]. cbn [foldOutcome updateStep].
    simpl in Hsrv. destruct (decide (k0 = k)) as [->|Hne].
    + rewrite Hsrv. by rewrite Hbad, Hbind.
    + destruct (Hothers k0) as (s & Hs & Hopen & Hroom); [left|done|].
      simpl in Hs. rewrite Hs. unfold sendChan. rewrite Hopen.
      apply Nat.ltb_lt in Hroom as ->. simpl.
      apply IH; [done| | |].
      * apply elem_of_cons in Hk as [Heq|?]; [|done].
        simpl in Heq. by destruct Hne.
      * simpl. by rewrite lookup_insert_ne.
      * intros k' Hk' Hne'. simpl.
        rewrite lookup_insert_ne by (intros ->; done).
        apply Hothers; [by right|done].
Qed.

(** X19. A stopped server stays registered, and the next update of its
    DeviceType brings the cycle down: when the device map of a DeviceType
    changes and the update channel of its registered server is closed, the
    cycle panics on the send; when that channel is open but full, the cycle
    waits. (The other servers are taken to be in a lifecycle state with room
    in their channels.) *)
Theorem update_of_stopped_server_panics env π (m : FPGADevicePlugin)
    (n : Inventory) k srv a b :
  registryInvariant m →
  map_Forall (λ _ s, lifecycle s) (plugin_servers m) →
  (∀ k' s, k' ≠ k → plugin_servers m !! k' = Some s →
           chan_closed (update s) = false
           ∧ length (chan_buf (update s)) < chan_cap (update s)) →
  plugin_devices m !! k = Some a → n !! k = Some b → a ≠ b →
  plugin_servers m !! k = Some srv →
  (chan_closed (update srv) = true →
     checkDeviceUpdate env π m n = Panic "send on closed channel")
  ∧ (chan_closed (update srv) = false →
     chan_cap (update srv) ≤ length (chan_buf (update srv)) →
     checkDeviceUpdate env π m n = Blocked).
Proof.
  intros Hinv Hlife Hothers HA HB Hab Hsrv.
  assert (∀ bad : Outcome (FPGADevicePlugin * list Event),
            (∀ v (f : Chan DeviceMap → Outcome (FPGADevicePlugin * list Event)),
               sendChan (update srv) v ≫= f = bad) →
            (∀ g : FPGADevicePlugin * list Event
                   → Outcome (FPGADevicePlugin * list Event), bad ≫= g = bad) →
            checkDeviceUpdate env π m n = bad) as Hgen.
  { intros bad Hbad Hbind. unfold checkDeviceUpdate.
    destruct (deviceDiff_lookup π (plugin_devices m) n)
      as (added & updated & removed & -> & Hadd & Hupd & Hrem).
    set (st1 := foldl (addStep env) (m, []) (range π AtCheckAdded added)).
    assert (∀ k', is_Some (plugin_devices m !! k') →
              plugin_servers st1.1 !! k' = plugin_servers m !! k') as Hold.
    { intros k' [a' Hk']. unfold st1.
      rewrite addLoop_servers by apply NoDup_range_keys.
      by rewrite range_list_to_map, Hadd, Hk'. }
    destruct (removeLoop_returns env (range π AtCheckRemoved removed) st1)
      as (st2 & -> & Hkeep); [apply NoDup_range_keys| |].
    { intros k' [v Hk']%elem_of_range_keys. rewrite Hrem in Hk'.
      destruct (plugin_devices m !! k') as [a'|] eqn:HA';
        [|by destruct (n !! k')].
      rewrite Hold by by rewrite HA'.
      assert (k' ∈ dom (plugin_servers m)) as [s Hs]%elem_of_dom
        by (rewrite Hinv; apply elem_of_dom; by rewrite HA').
      exists s. split; [done|]. by apply (Hlife k' s). }
    simpl.
    assert (∀ k', is_Some (updated !! k') →
              plugin_servers st2.1 !! k' = plugin_servers m !! k') as Hupd2.
    { intros k' [v Hk']. rewrite Hupd in Hk'.
      destruct (plugin_devices m !! k') as [a'|] eqn:HA'; [|done].
      destruct (n !! k') as [b'|] eqn:HB'; [|done].
      rewrite Hkeep, Hold; [done|by rewrite HA'|].
      rewrite elem_of_range_keys, Hrem, HA', HB'. by intros [? ?]. }
    assert (updated !! k = Some b) as Hk.
    { rewrite Hupd, HA, HB. by rewrite decide_False. }
    apply (updateLoop_stuck _ st2 k srv bad);
      [apply NoDup_range_keys| | |done|done|].
    - apply elem_of_range_keys. by rewrite Hk.
    - rewrite Hupd2; [done|by rewrite Hk].
    - intros k' Hk'%elem_of_range_keys Hne. rewrite (Hupd2 k' Hk').
      destruct Hk' as [v Hk']. rewrite Hupd in Hk'.
      destruct (plugin_devices m !! k') as [a'|] eqn:HA'; [|done].
      assert (k' ∈ dom (plugin_servers m)) as [s Hs]%elem_of_dom
        by (rewrite Hinv; apply elem_of_dom; by rewrite HA').
      exists s. split; [done|]. by apply (Hothers k' s). }
  split.
  - intros Hclosed. apply Hgen; [|done].
    intros v f. unfold sendChan. by rewrite Hclosed.
  - intros Hopen Hfull. apply Hgen; [|done].
    intros v f. unfold sendChan. rewrite Hopen.
    by apply Nat.ltb_ge in Hfull as ->.
Qed.

Lemma update_of_stopped_server_panics_witness :
  checkDeviceUpdate quietEnv listedOrder stoppedPlugin (groupDevices [cardFn0])
  = Panic "send on closed channel".
Proof.
  destruct (update_of_stopped_server_panics quietEnv listedOrder stoppedPlugin
              (groupDevices [cardFn0]) "v1-t1"
              (mkServer "v1-t1" sharedSerialCard (socket servingServer)
                        (mkChan true [] 0) (mkChan true [] 1) None)
              sharedSerialCard (<["0000:01:00.0" := cardFn0]> ∅))
    as [Hpanic _].
  - vm_compute. reflexivity.
  - decide_by_compute.
  - intros k' s Hne Hs. exfalso. apply Hne.
    destruct (decide (k' = "v1-t1")) as [|Hne']; [done|].
    unfold stoppedPlugin in Hs. simpl in Hs.
    by rewrite lookup_insert_ne, lookup_empty in Hs.
  - vm_compute. reflexivity.
  - vm_compute. reflexivity.
  - intros Heq. apply (f_equal (λ d : DeviceMap, d !! "0000:01:00.1")) in Heq.
    vm_compute in Heq. discriminate.
  - reflexivity.
  - by apply Hpanic.
Defined.








(** ** The poll loop *)

Lemma groupStep_stores devMap device :
  storedAt (groupStep devMap device) (DSAtype device) (DBDF device) device.
Proof.
  unfold storedAt, groupStep. fold (DSAtype device).
  destruct (devMap !! DSAtype device);
    eexists; rewrite lookup_insert_eq; (split; [done|]);
    by rewrite lookup_insert_eq.
Qed.

Lemma groupStep_keeps devMap device t id d :
  storedAt devMap t id d →
  ¬ (DSAtype device = t ∧ DBDF device = id) →
  storedAt (groupStep devMap device) t id d.
Proof.
  intros (sub & Hsub & Hd) Hother. unfold storedAt, groupStep.
  fold (DSAtype device).
  destruct (decide (DSAtype device = t)) as [Ht|Ht].
  - rewrite Ht, Hsub. eexists. rewrite lookup_insert_eq. split; [done|].
    rewrite lookup_insert_ne; [done|]. intros Hid. by apply Hother.
  - destruct (devMap !! DSAtype device);
      exists sub; by rewrite lookup_insert_ne.
Qed.

Lemma groupStep_stored devMap device t id d :
  storedAt (groupStep devMap device) t id d →
  d = device ∨ storedAt devMap t id d.
Proof.
  unfold storedAt, groupStep. fold (DSAtype device).
  intros (sub & Hsub & Hd).
  destruct (decide (t = DSAtype device)) as [->|Ht].
  - destruct (devMap !! DSAtype device) as [subMap|] eqn:Hold;
      rewrite lookup_insert_eq in Hsub; injection Hsub as <-;
      (destruct (decide (id = DBDF device)) as [->|Hid];
       [rewrite lookup_insert_eq in Hd; left; congruence
       |rewrite lookup_insert_ne in Hd by done]).
    + right. by exists subMap.
    + by rewrite lookup_empty in Hd.
  - right. exists sub. split; [|done].
    by destruct (devMap !! DSAtype device);
      rewrite lookup_insert_ne in Hsub.
Qed.

Lemma groupStep_nonempty devMap device :
  (∀ t sub, devMap !! t = Some sub → sub ≠ ∅) →
  ∀ t sub, groupStep devMap device !! t = Some sub → sub ≠ ∅.
Proof.
  intros Hinv t sub. unfold groupStep. fold (DSAtype device).
  destruct (devMap !! DSAtype device) as [subMap|] eqn:Hold;
    (destruct (decide (t = DSAtype device)) as [->|Ht];
     [rewrite lookup_insert_eq; intros [= <-]; apply insert_non_empty
     |rewrite lookup_insert_ne by done; apply Hinv]).
Qed.

(** X21. The grouping of the polled device list: every group is non-empty;
    a device stored under a DeviceType and an id is a device of the list with
    that DeviceType and that id; and every device of the list is stored under
    its DeviceType and id unless a later device of the list has the same
    DeviceType and id, in which case the later one is. *)
Theorem grouping_stores_devices (devices : list Device) :
  (∀ t sub, groupDevices devices !! t = Some sub → sub ≠ ∅)
  ∧ (∀ t id d, storedAt (groupDevices devices) t id d →
               d ∈ devices ∧ DSAtype d = t ∧ DBDF d = id)
  ∧ (∀ pre d post,
       devices = pre ++ d :: post →
       (∀ d', d' ∈ post → ¬ (DSAtype d' = DSAtype d ∧ DBDF d' = DBDF d)) →
       storedAt (groupDevices devices) (DSAtype d) (DBDF d) d).
Proof.
  unfold groupDevices. split; [|split].
  - assert (∀ devMap : Inventory,
              (∀ t sub, devMap !! t = Some sub → sub ≠ ∅) →
              ∀ t sub, foldl groupStep devMap devices !! t = Some sub
                       → sub ≠ ∅) as Hgen.
    { induction devices as [|d devices IH]; intros devMap Hinv; [done|].
      simpl. by apply IH, groupStep_nonempty. }
    apply Hgen. intros t sub. by rewrite lookup_empty.
  - intros t id d Hst.
    destruct Hst as (sub & Hsub & Hd).
    destruct (groupDevices_keyed devices t sub Hsub) as [Hkey Htype].
    split; [|split; [by eapply Htype|by apply (Hkey id d)]].
    assert (∀ devMap : Inventory,
              storedAt (foldl groupStep devMap devices) t id d →
              d ∈ devices ∨ storedAt devMap t id d) as Hgen.
    { clear. induction devices as [|d0 devices IH]; intros devMap Hst;
        [by right|].
      simpl in Hst. apply IH in Hst as [?|Hst]; [left; by right|].
      apply groupStep_stored in Hst as [->|?]; [left; left|by right]. }
    destruct (Hgen ∅) as [?|(sub' & Hsub' & _)]; [by exists sub|done|].
    by rewrite lookup_empty in Hsub'.
  - intros pre d post -> Hlast. rewrite foldl_app. cbn [foldl].
    generalize (foldl groupStep ∅ pre). intros devMap.
    pose proof (groupStep_stores devMap d) as Hst. revert Hst.
    generalize (groupStep devMap d). clear devMap. intros devMap Hst.
    revert devMap Hst. induction post as [|d' post IH]; intros devMap Hst;
      [done|].
    simpl. apply IH.
    + intros d'' Hd''. apply Hlast. by right.
    + apply groupStep_keeps; [done|]. apply Hlast. left.
Qed.

(** X22. With a receiver that takes every inventory, the poll loop sends
    the grouping of every successful answer of [GetDevices] that comes before
    the first two failures in a row, in order, so that a single failure loses
    no inventory; and it ends, closing the channel, exactly when two calls in
    a row have failed. *)
Theorem pollLoop_retries_once (answers : list (option (list Device))) :
  pollLoop answers
  = (groupDevices <$> omap id (untilDoubleFailure answers),
     doubleFailure answers).
Proof.
  induction answers as [|answer rest IH]; [done|].
  destruct answer as [devices|].
  - cbn [pollLoop untilDoubleFailure doubleFailure]. rewrite IH. done.
  - destruct rest as [|[devices|] rest']; [done| |done].
    change (pollLoop (None :: Some devices :: rest'))
      with (pollLoop (Some devices :: rest')).
    rewrite IH. done.
Qed.
